(** * Order access service (order.service.ts): model and verified properties

    The development embeds the TypeScript class [OrderService] of
    [src/main/webapp/app/entities/order/service/order.service.ts]:
    the identity helpers, the collection merge, the date conversions between
    the in-memory and the wire form of an order, the sort parameter and the
    fan-out that decrements the stock of the goods of a shipped order. *)

From Stdlib Require Import ZArith String Ascii List Lia Bool PrimFloat.
From stdpp Require Import gmap strings list.

Local Open Scope string_scope.

(** ** JavaScript values *)

(** A property declared [p?: A | null]: the key may be missing, or it holds
    [undefined], [null] or a value. *)
Inductive Slot (A : Type) : Type :=
  | Absent
  | Undefined
  | Null
  | Val (a : A).
Arguments Absent {A}.
Arguments Undefined {A}.
Arguments Null {A}.
Arguments Val {A} a.

(** A reference of type [A | null | undefined] (the rest arguments of
    [addOrderToCollectionIfMissing]). *)
Inductive Nullish (A : Type) : Type :=
  | JsUndefined
  | JsNull
  | Just (a : A).
Arguments JsUndefined {A}.
Arguments JsNull {A}.
Arguments Just {A} a.

(** Values of the domain fields the service copies through untouched. *)
Inductive JsVal : Type :=
  | JNull
  | JBool (b : bool)
  | JNum (n : Z)
  | JStr (s : string).

(** An order object.  [I] is the type of its [id] property ([string] for
    [IOrder], [PartialUpdateOrder] and their wire forms, the [null] type for
    [NewOrder]); [D] is the type of a date value ([Dayjs] in memory, [string]
    on the wire, see [RestOf]); [others] holds every other own property. *)
Record Obj (I D : Type) : Type := mkObj {
  id : I;
  date : Slot D;
  others : gmap string JsVal
}.
Arguments mkObj {I D} _ _ _.
Arguments id {I D} _.
Arguments date {I D} _.
Arguments others {I D} _.

(** ** The service instance: its two retained sort fields and its endpoint *)

Record OrderService : Type := mkService {
  predicate : string;
  ascending : bool;
  resourceUrl : string
}.

(** Modelled from the spec: the constants [ASC] and [DESC] of
    [config/navigation.constants], which is not part of the sources; the spec
    gives the two tokens in ["id,asc"] and ["id,desc"]. *)
Definition ASC : string := "asc".
Definition DESC : string := "desc".

(** ** Identity helpers *)

Definition getOrderIdentifier {D : Type} (order : Obj string D) : string :=
  id order.

(** [o1 && o2 ? id(o1) === id(o2) : o1 === o2] on references of type
    [Pick<IOrder, 'id'> | null]: an object is truthy, [null] is falsy, and
    [===] between [null] and anything else holds only for [null] itself. *)
Definition compareOrder {D : Type} (o1 o2 : option (Obj string D)) : bool :=
  match o1, o2 with
  | Some a, Some b => String.eqb (getOrderIdentifier a) (getOrderIdentifier b)
  | None, None => true
  | _, _ => false
  end.

(** ** Sort parameter *)

(** An omitted argument ([None]) takes the default of the parameter list,
    [this.predicate] and [this.ascending]. *)
Definition getSortQueryParam (this : OrderService)
    (predicate_arg : option string) (ascending_arg : option bool) : list string :=
  let predicate := default (predicate this) predicate_arg in
  let ascending := default (ascending this) ascending_arg in
  let ascendingQueryParam := if ascending then ASC else DESC in
  if String.eqb predicate "" then []
  else [predicate ++ "," ++ ascendingQueryParam].

(** ** Arrays as heap objects *)

(** A JavaScript array is a reference: the store maps a location to the
    elements of the array that lives there.  It holds the collections a caller
    can reach; the temporary arrays of a call are plain lists. *)
Definition loc : Type := positive.

(** A new array is placed at a location the store does not use yet. *)
Definition alloc {T : Type} (xs : list T) (st : gmap loc (list T))
    : loc * gmap loc (list T) :=
  let l := fresh (dom st) in (l, <[l := xs]> st).

(** [Array.prototype.filter] with a callback that updates a captured
    variable of type [S]: the elements are visited in index order. *)
Fixpoint filter_st {A S : Type} (f : A -> S -> bool * S) (l : list A) (s : S)
    : list A * S :=
  match l with
  | [] => ([], s)
  | x :: l' =>
      let '(keep, s1) := f x s in
      let '(r, s2) := filter_st f l' s1 in
      (if keep then x :: r else r, s2)
  end.

(** [Array.prototype.includes] on an array of strings. *)
Definition includes (ids : list string) (x : string) : bool :=
  existsb (String.eqb x) ids.

(** ** Collection merge *)

(** Modelled from the spec: the type guard [isPresent] of
    [app/core/util/operators], which is not part of the sources; the spec has
    the null or absent candidates dropped. *)
Definition isPresent {A : Type} (t : Nullish A) : bool :=
  match t with
  | Just _ => true
  | _ => false
  end.

(** The narrowing [t is T] that the guard gives the filtered array. *)
Definition narrow {A : Type} (l : list (Nullish A)) : list A :=
  flat_map (fun t => match t with Just a => [a] | _ => [] end) l.

(** The callback of the second [filter]: it reads and extends the array
    [orderCollectionIdentifiers]. *)
Definition notYetCollected {D : Type} (orderItem : Obj string D)
    (orderCollectionIdentifiers : list string) : bool * list string :=
  let orderIdentifier := getOrderIdentifier orderItem in
  if includes orderCollectionIdentifiers orderIdentifier
  then (false, orderCollectionIdentifiers)
  else (true, (orderCollectionIdentifiers ++ [orderIdentifier])%list).

(** The function takes the array [orderCollection] by reference and returns
    a reference: the argument itself, or an array allocated by the spread
    [[...ordersToAdd, ...orderCollection]].  A reference of a running program
    always points to an array of the store; the total lookup reads it. *)
Definition addOrderToCollectionIfMissing {D : Type}
    (orderCollection : loc) (ordersToCheck : list (Nullish (Obj string D)))
    (st : gmap loc (list (Obj string D)))
    : loc * gmap loc (list (Obj string D)) :=
  let orders := narrow (List.filter isPresent ordersToCheck) in
  if (0 <? length orders)%nat then
    let elements := st !!! orderCollection in
    let orderCollectionIdentifiers := map getOrderIdentifier elements in
    let ordersToAdd :=
      fst (filter_st notYetCollected orders orderCollectionIdentifiers) in
    alloc (ordersToAdd ++ elements)%list st
  else (orderCollection, st).

(** A caller that merges one batch of candidates after another into the
    collection it got back from the call before. *)
Fixpoint mergeBatches {D : Type} (orderCollection : loc)
    (batches : list (list (Nullish (Obj string D))))
    (st : gmap loc (list (Obj string D)))
    : loc * gmap loc (list (Obj string D)) :=
  match batches with
  | [] => (orderCollection, st)
  | ordersToCheck :: rest =>
      let '(l, st') := addOrderToCollectionIfMissing orderCollection ordersToCheck st in
      mergeBatches l rest st'
  end.

(** The merge as the specification words it: the candidate at index [i] is
    accepted when it is present and its identifier occurs neither in the
    original collection nor in a candidate before it in the same call. *)
Definition acceptedAt {D : Type} (collection : list (Obj string D))
    (candidates : list (Nullish (Obj string D))) (i : nat)
    (c : Nullish (Obj string D)) : option (Obj string D) :=
  match c with
  | Just o =>
      if decide ((id o ∉ map id collection) ∧ (id o ∉ map id (narrow (take i candidates))))
      then Some o else None
  | _ => None
  end.

Definition mergedBySpec {D : Type} (collection : list (Obj string D))
    (candidates : list (Nullish (Obj string D))) : list (Obj string D) :=
  (omap (fun a => a) (imap (acceptedAt collection candidates) candidates) ++ collection)%list.

(** The objects of the examples: [{id: "1"}], [{id: "2"}], [{id: "3"}]. *)
Definition withId (i : string) : Obj string string := mkObj i Absent ∅.

(** ** Dates *)

(** The interface of the date library (dayjs) as the service uses it:
    [dayjs(s)] builds a date from a wire string, and [d.toJSON()] gives the
    ISO string of a date, or [null] for an invalid date. *)
Class DateLib : Type := {
  Dayjs : Type;
  dayjs : string -> Dayjs;
  toJSON : Dayjs -> option string
}.

(** A reference instance for concrete runs: the time value of the wrapped
    JavaScript [Date] (milliseconds since the epoch, or invalid), printed as
    [Date.prototype.toISOString] prints it and read back from the UTC strings
    [YYYY-MM-DDTHH:mm:ss[.sss]Z], with a four-digit or an expanded year.
    Strings in other formats, which dayjs reads in the local time zone or
    hands to the engine's parser, are outside this instance and read as
    invalid dates; the instance is used at strings of the format only. *)
Module IsoDate.

Inductive t : Type :=
  | Valid (ms : Z)
  | Invalid.

Local Open Scope Z_scope.

Definition msPerDay : Z := 86400000.

(** Proleptic Gregorian calendar: day number (0 is 1970-01-01) to year,
    month, day, and back. *)
Definition civil_from_days (z : Z) : Z * Z * Z :=
  let z := z + 719468 in
  let era := z / 146097 in
  let doe := z - era * 146097 in
  let yoe := (doe - doe / 1460 + doe / 36524 - doe / 146096) / 365 in
  let doy := doe - (365 * yoe + yoe / 4 - yoe / 100) in
  let mp := (5 * doy + 2) / 153 in
  let d := doy - (153 * mp + 2) / 5 + 1 in
  let m := if mp <? 10 then mp + 3 else mp - 9 in
  let y := yoe + era * 400 in
  (if m <=? 2 then y + 1 else y, m, d).

Definition days_from_civil (y m d : Z) : Z :=
  let y := if m <=? 2 then y - 1 else y in
  let era := y / 400 in
  let yoe := y - era * 400 in
  let doy := (153 * (if 2 <? m then m - 3 else m + 9) + 2) / 5 + d - 1 in
  let doe := yoe * 365 + yoe / 4 - yoe / 100 + doy in
  era * 146097 + doe - 719468.

Definition digit (n : Z) : ascii := ascii_of_nat (48 + Z.to_nat n).

Fixpoint digits (width : nat) (n : Z) : string :=
  match width with
  | O => EmptyString
  | S w => (digits w (n / 10)%Z ++ String (digit (n mod 10)%Z) EmptyString)%string
  end.

Definition toISOString (ms : Z) : string :=
  let '(y, m, d) := civil_from_days (ms / msPerDay) in
  let r := ms mod msPerDay in
  let year :=
    if (0 <=? y) && (y <=? 9999) then digits 4 y
    else ((if (y <? 0)%Z then "-" else "+") ++ digits 6 (Z.abs y))%string in
  (year ++ "-" ++ digits 2 m ++ "-" ++ digits 2 d ++ "T"
     ++ digits 2 (r / 3600000)%Z ++ ":" ++ digits 2 (r / 60000 mod 60)%Z ++ ":"
     ++ digits 2 (r / 1000 mod 60)%Z ++ "." ++ digits 3 (r mod 1000)%Z ++ "Z")%string.

Definition digit_value (c : ascii) : option Z :=
  let n := Z.of_nat (nat_of_ascii c) in
  if (48 <=? n) && (n <=? 57) then Some (n - 48) else None.

Fixpoint number (acc : Z) (s : string) : option Z :=
  match s with
  | EmptyString => Some acc
  | String c s' =>
      match digit_value c with
      | Some v => number (10 * acc + v) s'
      | None => None
      end
  end.

Definition field (s : string) (start len : nat) : option Z :=
  if (String.length (substring start len s) =? len)%nat
  then number 0 (substring start len s) else None.

(** The year is four digits, or a sign and six digits (not [-000000]); the
    day is checked against 31 only and a day past the end of its month runs
    into the next one; the result is a time value of the range of [Date]. *)
Definition parse (s : string) : option Z :=
  let sign := substring 0 1 s in
  let expanded := String.eqb sign "+" || String.eqb sign "-" in
  let o := if expanded then 3%nat else 0%nat in
  let n := String.length s in
  let year :=
    if expanded then
      match field s 1 6 with
      | Some y => if String.eqb sign "-"
                  then (if y =? 0 then None else Some (- y)) else Some y
      | None => None
      end
    else field s 0 4 in
  let punctuation :=
    String.eqb (substring (4 + o) 1 s) "-" && String.eqb (substring (7 + o) 1 s) "-"
    && String.eqb (substring (10 + o) 1 s) "T" && String.eqb (substring (13 + o) 1 s) ":"
    && String.eqb (substring (16 + o) 1 s) ":" in
  let millis :=
    if (n =? 20 + o)%nat && String.eqb (substring (19 + o) 1 s) "Z" then Some 0
    else if (n =? 24 + o)%nat && String.eqb (substring (19 + o) 1 s) "."
            && String.eqb (substring (23 + o) 1 s) "Z" then field s (20 + o) 3
    else None in
  match year, field s (5 + o) 2, field s (8 + o) 2,
        field s (11 + o) 2, field s (14 + o) 2, field s (17 + o) 2, millis with
  | Some y, Some m, Some d, Some h, Some mi, Some sec, Some msec =>
      let time := days_from_civil y m d * msPerDay
                  + h * 3600000 + mi * 60000 + sec * 1000 + msec in
      if punctuation && (1 <=? m) && (m <=? 12) && (1 <=? d) && (d <=? 31)
         && (h <=? 23) && (mi <=? 59) && (sec <=? 59)
         && (Z.abs time <=? 8640000000000000)
      then Some time
      else None
  | _, _, _, _, _, _, _ => None
  end.

Definition lib : DateLib := {|
  Dayjs := t;
  dayjs := fun s => match parse s with Some ms => Valid ms | None => Invalid end;
  toJSON := fun d => match d with Valid ms => Some (toISOString ms) | Invalid => None end
|}.

End IsoDate.

(** ** Conversions between the in-memory and the wire form *)

Section Conversions.
Context {L : DateLib}.

(** [date?.toJSON()]: [undefined] when the property is missing, [undefined]
    or [null], and otherwise what [toJSON] returns, a string or [null]. *)
Definition toJSON_optional (d : Slot Dayjs) : Slot string :=
  match d with
  | Val d =>
      match toJSON d with
      | Some s => Val s
      | None => Null
      end
  | _ => Undefined
  end.

(** [x ?? null]. *)
Definition orNull {A : Type} (x : Slot A) : Slot A :=
  match x with
  | Val a => Val a
  | _ => Null
  end.

(** [{ ...order, date: order.date?.toJSON() ?? null }]. *)
Definition convertDateFromClient {I : Type} (order : Obj I Dayjs) : Obj I string :=
  {| id := id order;
     date := orNull (toJSON_optional (date order));
     others := others order |}.

(** The condition of [restOrder.date ? ... : ...]: only a non-empty string
    is truthy. *)
Definition truthy (d : Slot string) : bool :=
  match d with
  | Val s => negb (String.eqb s "")
  | _ => false
  end.

(** [{ ...restOrder, date: restOrder.date ? dayjs(restOrder.date) : undefined }]. *)
Definition convertDateFromServer {I : Type} (restOrder : Obj I string) : Obj I Dayjs :=
  {| id := id restOrder;
     date := match date restOrder with
             | Val s => if truthy (Val s) then Val (dayjs s) else Undefined
             | _ => Undefined
             end;
     others := others restOrder |}.

End Conversions.

(** ** HTTP requests and responses *)

(** The response envelope [HttpResponse<T>]; [body] is [T | null]. *)
Record HttpResponse (A : Type) : Type := mkResponse {
  status : Z;
  statusText : string;
  headers : list (string * string);
  url : option string;
  body : option A
}.
Arguments mkResponse {A} _ _ _ _ _.
Arguments status {A} _.
Arguments statusText {A} _.
Arguments headers {A} _.
Arguments url {A} _.
Arguments body {A} _.

(** [res.clone({ body: b })]: the envelope with its body replaced. *)
Definition clone {A B : Type} (res : HttpResponse A) (b : option B) : HttpResponse B :=
  {| status := status res;
     statusText := statusText res;
     headers := headers res;
     url := url res;
     body := b |}.

Inductive Method : Type := GET | POST | PUT | PATCH | DELETE.

(** A request handed to the HTTP client with [{ observe: 'response' }]. *)
Record HttpRequest (B P : Type) : Type := mkRequest {
  method : Method;
  target : string;
  payload : option B;
  params : option P
}.
Arguments mkRequest {B P} _ _ _ _.
Arguments method {B P} _.
Arguments target {B P} _.
Arguments payload {B P} _.
Arguments params {B P} _.

(** [http.verb(...).pipe(map(project))]: the observable of a request whose
    response is passed through [project] before the subscriber sees it. *)
Record Piped (R A B : Type) : Type := mkPiped {
  request : R;
  project : A -> B
}.
Arguments mkPiped {R A B} _ _.
Arguments request {R A B} _.
Arguments project {R A B} _.

(** The constructor: the field initialisers of the class.  The endpoint
    resolver [getEndpointFor] belongs to [ApplicationConfigService], which is
    not part of the sources, and is a parameter. *)
Definition newOrderService (getEndpointFor : string -> string) : OrderService :=
  {| predicate := "id";
     ascending := true;
     resourceUrl := getEndpointFor "api/orders" |}.

Section Requests.
Context {L : DateLib}.

(** [createRequestOption] of [app/core/request/request-util] is not part of
    the sources: the request options and the query parameters it makes of
    them are parameters. *)
Context {Req Params : Type} (createRequestOption : option Req -> Params).

Definition convertResponseFromServer (res : HttpResponse (Obj string string))
    : HttpResponse (Obj string Dayjs) :=
  clone res
    match body res with
    | Some restOrder => Some (convertDateFromServer restOrder)
    | None => None
    end.

(** An array is truthy, also when it is empty. *)
Definition convertResponseArrayFromServer
    (res : HttpResponse (list (Obj string string)))
    : HttpResponse (list (Obj string Dayjs)) :=
  clone res
    match body res with
    | Some items => Some (map (fun item => convertDateFromServer item) items)
    | None => None
    end.

Definition partialUpdate (this : OrderService) (order : Obj string Dayjs)
    : Piped (HttpRequest (Obj string string) Params)
            (HttpResponse (Obj string string)) (HttpResponse (Obj string Dayjs)) :=
  let copy := convertDateFromClient order in
  {| request := mkRequest PATCH
                  (resourceUrl this ++ "/" ++ getOrderIdentifier order)
                  (Some copy) None;
     project := fun res => convertResponseFromServer res |}.

Definition query (this : OrderService) (req : option Req)
    : Piped (HttpRequest (Obj string string) Params)
            (HttpResponse (list (Obj string string)))
            (HttpResponse (list (Obj string Dayjs))) :=
  let options := createRequestOption req in
  {| request := mkRequest GET (resourceUrl this) None (Some options);
     project := fun res => convertResponseArrayFromServer res |}.

End Requests.

(** ** Observables and the fan-out join *)

(** What an observable tells its subscriber. *)
Inductive Notification (A E : Type) : Type :=
  | Next (a : A)
  | Error (e : E)
  | Complete.
Arguments Next {A E} a.
Arguments Error {A E} e.
Arguments Complete {A E}.

(** [combineLatest(sources)]: the observable that joins the array of sources
    it is given. *)
Record Combined (S : Type) : Type := combineLatest { sources : list S }.
Arguments combineLatest {S} _.
Arguments sources {S} _.

(** The subscriber that rxjs's [combineLatest] keeps for its sources: the
    latest value of each source (unset until the first one arrives), the
    number of sources still active, the number of sources that have not
    delivered a first value, and whether the join has terminated (completed,
    or failed with the error of a source) and dropped its subscriptions. *)
Record Join (A : Type) : Type := mkJoin {
  values : list (option A);
  active : nat;
  remainingFirstValues : nat;
  closed : bool
}.
Arguments mkJoin {A} _ _ _ _.
Arguments values {A} _.
Arguments active {A} _.
Arguments remainingFirstValues {A} _.
Arguments closed {A} _.

Section CombineLatest.
Context {A E : Type}.

(** Subscription to [n] sources; with no source the join completes at
    once. *)
Definition joinInit (n : nat) : Join A * list (Notification (list A) E) :=
  if (n =? 0)%nat then (mkJoin [] 0 0 true, [Complete])
  else (mkJoin (replicate n None) n n false, []).

(** Source [i] delivers a notification.  A value is stored, and the array
    of latest values is emitted once every source has delivered one; an
    error terminates the join with that error; a completion terminates it
    when it is the last one. *)
Definition joinStep (j : Join A) (i : nat) (n : Notification A E)
    : Join A * list (Notification (list A) E) :=
  if closed j then (j, [])
  else
    match n with
    | Next v =>
        let remaining :=
          match values j !! i with
          | Some None => (remainingFirstValues j - 1)%nat
          | _ => remainingFirstValues j
          end in
        let values' := <[i := Some v]> (values j) in
        (mkJoin values' (active j) remaining false,
         if (remaining =? 0)%nat then [Next (omap (fun v => v) values')] else [])
    | Error e =>
        (mkJoin (values j) (active j) (remainingFirstValues j) true, [Error e])
    | Complete =>
        let active' := (active j - 1)%nat in
        if (active' =? 0)%nat
        then (mkJoin (values j) active' (remainingFirstValues j) true, [Complete])
        else (mkJoin (values j) active' (remainingFirstValues j) false, [])
    end.

Fixpoint joinRun (j : Join A) (events : list (nat * Notification A E))
    : Join A * list (Notification (list A) E) :=
  match events with
  | [] => (j, [])
  | (i, n) :: rest =>
      let '(j1, out1) := joinStep j i n in
      let '(j2, out2) := joinRun j1 rest in
      (j2, (out1 ++ out2)%list)
  end.

End CombineLatest.

(** ** Stock decrement on shipping *)

(** The [-] of two JavaScript numbers is the binary64 subtraction: exact on
    whole numbers up to 2^53, rounded to nearest beyond, [NaN] on [NaN]. *)

(** Modelled from the spec: the join entity of
    [good-in-order/good-in-order.model], which is not part of the sources.
    The service casts [good_id] to [string] and the two amounts to [number]:
    a JavaScript number is an IEEE 754 binary64 value, a [float] here. *)
Record IGoodInOrder : Type := mkGoodInOrder {
  good_id : string;
  good_amount : float;
  good_in_order_amount : float
}.

(** A call [goodService.updateAmountByGoodId(id, amount)] of the Good
    collaborator, which stands for the observable the call returns. *)
Record GoodUpdate : Type := updateAmountByGoodId {
  updated_good_id : string;
  updated_amount : float
}.

Definition decrementGoodsCountOnShip (goodsInOrder : list IGoodInOrder)
    : Combined GoodUpdate :=
  combineLatest
    (map (fun goodInOrder =>
            let diff := (good_amount goodInOrder - good_in_order_amount goodInOrder)%float in
            updateAmountByGoodId (good_id goodInOrder) diff)
         goodsInOrder).

(** ** The environment of the join *)

(** An update request ends in one of two ways: the response arrives and the
    source then completes, or the request fails. *)
Inductive Outcome (R E : Type) : Type :=
  | Ok (r : R)
  | Failed (e : E).
Arguments Ok {R E} r.
Arguments Failed {R E} e.

(** The order in which the requests are answered: source [i] gets the
    outcome of its request, or, having delivered its response, completes. *)
Inductive Arrival : Type :=
  | Responds (i : nat)
  | Completes (i : nat).

Inductive Phase : Type := Pending | Emitted | Done.

Section Environment.
Context {R E : Type}.

(** The notification an arrival brings, and its source. *)
Definition notification (outcomes : list (Outcome R E)) (a : Arrival)
    : option (nat * Notification R E) :=
  match a with
  | Responds i =>
      match outcomes !! i with
      | Some (Ok r) => Some (i, Next r)
      | Some (Failed e) => Some (i, Error e)
      | None => None
      end
  | Completes i => Some (i, Complete)
  end.

(** A source answers once, and completes once, after a response. *)
Definition arrive (outcomes : list (Outcome R E)) (phases : list Phase)
    (a : Arrival) : option (list Phase) :=
  match a with
  | Responds i =>
      match phases !! i, outcomes !! i with
      | Some Pending, Some (Ok _) => Some (<[i := Emitted]> phases)
      | Some Pending, Some (Failed _) => Some (<[i := Done]> phases)
      | _, _ => None
      end
  | Completes i =>
      match phases !! i with
      | Some Emitted => Some (<[i := Done]> phases)
      | _ => None
      end
  end.

(** The phases the sources reach along a schedule, if the schedule is one
    the sources can produce. *)
Fixpoint arriveAll (outcomes : list (Outcome R E)) (phases : list Phase)
    (schedule : list Arrival) : option (list Phase) :=
  match schedule with
  | [] => Some phases
  | a :: rest =>
      match arrive outcomes phases a with
      | Some phases' => arriveAll outcomes phases' rest
      | None => None
      end
  end.

(** What a subscriber of the joined observable receives when the requests
    of the sources end as [outcomes] say, in the order of [schedule]. *)
Definition subscribe {S : Type} (joined : Combined S)
    (backend : S -> Outcome R E) (schedule : list Arrival)
    : list (Notification (list R) E) :=
  let outcomes := map backend (sources joined) in
  let '(j0, out0) := joinInit (length (sources joined)) in
  (out0 ++ snd (joinRun j0 (omap (notification outcomes) schedule)))%list.

(** The schedules of [joined]: every arrival is one its source can make,
    from the start, where every request is pending. *)
Definition schedulePhases {S : Type} (joined : Combined S)
    (backend : S -> Outcome R E) (schedule : list Arrival) : option (list Phase) :=
  arriveAll (map backend (sources joined))
    (replicate (length (sources joined)) Pending) schedule.

End Environment.

(** The same, with the outcome of each request given by the position of its
    source in the array: two calls with the same arguments need not end the
    same way. *)
Definition subscribeEach {S R E : Type} (joined : Combined S)
    (outcomes : list (Outcome R E)) (schedule : list Arrival)
    : list (Notification (list R) E) :=
  let '(j0, out0) := joinInit (length (sources joined)) in
  (out0 ++ snd (joinRun j0 (omap (notification outcomes) schedule)))%list.

Definition schedulePhasesEach {S R E : Type} (joined : Combined S)
    (outcomes : list (Outcome R E)) (schedule : list Arrival) : option (list Phase) :=
  arriveAll outcomes (replicate (length (sources joined)) Pending) schedule.

(** The failure of a request, [HttpErrorResponse]. *)
Record HttpErrorResponse : Type := mkError {
  errorStatus : Z;
  errorText : string
}.

(** The number of sources that satisfy [f]. *)
Fixpoint countPhase (f : Phase -> bool) (phases : list Phase) : nat :=
  match phases with
  | [] => 0
  | p :: rest => ((if f p then 1 else 0) + countPhase f rest)%nat
  end.

(** Requests not answered yet, and sources not terminated yet. *)
Definition pending (phases : list Phase) : nat :=
  countPhase (fun p => match p with Pending => true | _ => false end) phases.
Definition unfinished (phases : list Phase) : nat :=
  countPhase (fun p => match p with Done => false | _ => true end) phases.

(** The join and its sources agree while the join is open: an unanswered
    source has no value, an answered one has delivered the response of its
    request, and the two counters count the unanswered and the unterminated
    sources. *)
Definition joinInv {R E : Type} (outcomes : list (Outcome R E))
    (phases : list Phase) (j : Join R) : Prop :=
  closed j = false /\
  length phases = length outcomes /\
  length (values j) = length outcomes /\
  (forall i, phases !! i = Some Pending -> values j !! i = Some None) /\
  (forall i, phases !! i = Some Emitted \/ phases !! i = Some Done ->
             exists r, outcomes !! i = Some (Ok r) /\ values j !! i = Some (Some r)) /\
  remainingFirstValues j = pending phases /\
  active j = unfinished phases /\
  (0 < unfinished phases)%nat.

(** The inputs of the specification's example. *)
Definition okResponse : HttpResponse unit := mkResponse 200 "OK" [] None None.
Definition specGoods : list IGoodInOrder :=
  [mkGoodInOrder "g1" 10 3; mkGoodInOrder "g2" 5 5].

(** ** The other requests *)

Section Writes.
Context {L : DateLib}.
Context {Params : Type}.

Definition update (this : OrderService) (order : Obj string Dayjs)
    : Piped (HttpRequest (Obj string string) Params)
            (HttpResponse (Obj string string)) (HttpResponse (Obj string Dayjs)) :=
  let copy := convertDateFromClient order in
  {| request := mkRequest PUT
                  (resourceUrl this ++ "/" ++ getOrderIdentifier order)
                  (Some copy) None;
     project := fun res => convertResponseFromServer res |}.

(** [delete] returns the observable of the request as it is, with no
    [pipe]: the response is not transformed. *)
Definition delete (this : OrderService) (id : string)
    : HttpRequest (Obj string string) Params :=
  mkRequest DELETE (resourceUrl this ++ "/" ++ id) None None.

End Writes.

(** The identifiers of the present candidates of a batch. *)
Definition candidateIdentifiers {D : Type}
    (ordersToCheck : list (Nullish (Obj string D))) : list string :=
  map getOrderIdentifier (narrow ordersToCheck).

(** * Verified properties *)

(** C4. [compareOrder] is the identity comparison of orders: two null
    references are equal, a present reference never equals a null one, two
    present references are equal exactly when their identifiers are; hence
    [compareOrder(o, o)] and [compareOrder(null, null)] hold and
    [compareOrder(o, null)] does not. *)
Theorem compareOrder_identity :
  forall D : Type,
    (@compareOrder D None None = true) /\
    (forall o : Obj string D,
        compareOrder (Some o) None = false /\ compareOrder None (Some o) = false) /\
    (forall a b : Obj string D,
        compareOrder (Some a) (Some b) = true <->
        getOrderIdentifier a = getOrderIdentifier b) /\
    (forall o : Obj string D, compareOrder (Some o) (Some o) = true).
Proof.
  intros D. repeat split; simpl.
  - intros H. by apply String.eqb_eq.
  - intros H. by apply String.eqb_eq.
  - intros o. apply String.eqb_refl.
Qed.

(** C7. [getSortQueryParam] returns no directive for the empty predicate and
    otherwise the single directive [predicate,asc] or [predicate,desc]; omitted
    arguments are read from the service's [predicate] and [ascending]. *)
Theorem getSortQueryParam_spec :
  forall this : OrderService,
    (forall asc : bool, getSortQueryParam this (Some "") (Some asc) = []) /\
    (forall (c : ascii) (p : string) (asc : bool),
        getSortQueryParam this (Some (String c p)) (Some asc)
        = [String c p ++ "," ++ (if asc then "asc" else "desc")]) /\
    getSortQueryParam this None None
      = getSortQueryParam this (Some (predicate this)) (Some (ascending this)) /\
    (forall p : string,
        getSortQueryParam this (Some p) None
        = getSortQueryParam this (Some p) (Some (ascending this))) /\
    (forall asc : bool,
        getSortQueryParam this None (Some asc)
        = getSortQueryParam this (Some (predicate this)) (Some asc)) /\
    getSortQueryParam this (Some "") (Some true) = [] /\
    getSortQueryParam this (Some "id") (Some true) = ["id,asc"] /\
    getSortQueryParam this (Some "id") (Some false) = ["id,desc"].
Proof.
  intros this. repeat split; try reflexivity.
Qed.

(** ** Collection merge: auxiliary facts *)

Section Merge.
Context {D : Type}.
Implicit Types (o : Obj string D) (c : Nullish (Obj string D)).
Implicit Types (coll orders : list (Obj string D)).
Implicit Types (cands pre suf : list (Nullish (Obj string D))).
Implicit Types (w : list string) (st : gmap loc (list (Obj string D))).

Lemma includes_elem_of w x : includes w x = true <-> x ∈ w.
Proof.
  unfold includes. rewrite existsb_exists. split.
  - intros (y & Hy & Heq). apply String.eqb_eq in Heq. subst y.
    by apply list_elem_of_In.
  - intros Hx. exists x. split; [by apply list_elem_of_In|apply String.eqb_refl].
Qed.

Lemma includes_false w x : includes w x = false <-> x ∉ w.
Proof.
  rewrite <- includes_elem_of. destruct (includes w x); split; done.
Qed.

Lemma narrow_filter_isPresent cands :
  narrow (List.filter isPresent cands) = narrow cands.
Proof.
  induction cands as [|c cands IH]; [done|].
  destruct c as [| |o]; simpl; [exact IH|exact IH|].
  unfold narrow in *. simpl. by rewrite IH.
Qed.

Lemma narrow_app pre suf : narrow (pre ++ suf)%list = (narrow pre ++ narrow suf)%list.
Proof. unfold narrow. by rewrite flat_map_app. Qed.

Lemma narrow_elem_of o cands : o ∈ narrow cands <-> Just o ∈ cands.
Proof.
  induction cands as [|c cands IH].
  - unfold narrow. simpl. split; intros H; by apply elem_of_nil in H.
  - rewrite elem_of_cons.
    destruct c as [| |o'].
    + change (narrow (JsUndefined :: cands)) with (narrow cands).
      rewrite IH. split; [by right|intros [H|H]; done].
    + change (narrow (JsNull :: cands)) with (narrow cands).
      rewrite IH. split; [by right|intros [H|H]; done].
    + change (narrow (Just o' :: cands)) with (o' :: narrow cands).
      rewrite elem_of_cons, IH.
      split; (intros [H|H]; [left; congruence|by right]).
Qed.

(** No candidate is present exactly when the first [filter] leaves an empty
    array. *)
Lemma narrow_nil_iff cands :
  narrow cands = [] <-> forallb (fun c => negb (isPresent c)) cands = true.
Proof.
  induction cands as [|[| |o] cands IH]; simpl; try done.
Qed.

(** The accepted orders have pairwise distinct identifiers, none of which
    was in the working array. *)
Lemma filter_st_distinct orders w :
  NoDup (map getOrderIdentifier (fst (filter_st notYetCollected orders w))) /\
  (forall x, x ∈ map getOrderIdentifier (fst (filter_st notYetCollected orders w)) -> x ∉ w).
Proof.
  revert w. induction orders as [|o orders IH]; intros w; simpl.
  - split; [constructor|]. intros x Hx. by apply elem_of_nil in Hx.
  - unfold notYetCollected at 1 3. 
    destruct (includes w (getOrderIdentifier o)) eqn:Hin.
    + destruct (filter_st notYetCollected orders w) as [r s2] eqn:Hr.
      specialize (IH w). rewrite Hr in IH. exact IH.
    + destruct (filter_st notYetCollected orders (w ++ [getOrderIdentifier o])%list)
        as [r s2] eqn:Hr.
      specialize (IH (w ++ [getOrderIdentifier o])%list). rewrite Hr in IH.
      simpl in *. destruct IH as [Hnd Hfresh]. split.
      * constructor; [|done]. intros Hx. apply Hfresh in Hx.
        apply Hx. apply elem_of_app. right. by apply list_elem_of_singleton.
      * intros x Hx. apply elem_of_cons in Hx as [->|Hx].
        -- by apply includes_false.
        -- apply Hfresh in Hx. intros Hw. apply Hx. apply elem_of_app. by left.
Qed.

(** The stateful filter accepts exactly the candidates the specification
    accepts, once the working array holds the identifiers of the collection
    and of the candidates seen before. *)
Lemma filter_st_acceptedAt coll suf : forall pre w,
  (forall x, x ∈ w <-> x ∈ map id coll \/ x ∈ map id (narrow pre)) ->
  fst (filter_st notYetCollected (narrow suf) w)
  = omap (fun a => a)
      (imap (fun i => acceptedAt coll (pre ++ suf)%list (length pre + i)) suf).
Proof.
  induction suf as [|c suf IH]; intros pre w Hw; [done|].
  assert (Hshift : forall w',
    (forall x, x ∈ w' <-> x ∈ map id coll \/ x ∈ map id (narrow (pre ++ [c])%list)) ->
    fst (filter_st notYetCollected (narrow suf) w')
    = omap (fun a => a)
        (imap ((fun i => acceptedAt coll (pre ++ c :: suf)%list (length pre + i)) ∘ S) suf)).
  { intros w' Hw'. rewrite (IH (pre ++ [c])%list w' Hw').
    f_equal. apply imap_ext. intros i x _. simpl.
    rewrite <- app_assoc. simpl. rewrite length_app. simpl. f_equal. lia. }
  rewrite imap_cons. simpl omap.
  assert (Htake : take (length pre + 0) (pre ++ c :: suf)%list = pre).
  { rewrite Nat.add_0_r. by rewrite take_app_length. }
  destruct c as [| |o].
  - change (narrow (JsUndefined :: suf)) with (narrow suf). simpl.
    apply Hshift. intros x. rewrite narrow_app. unfold narrow at 2. simpl.
    rewrite app_nil_r. apply Hw.
  - change (narrow (JsNull :: suf)) with (narrow suf). simpl.
    apply Hshift. intros x. rewrite narrow_app. unfold narrow at 2. simpl.
    rewrite app_nil_r. apply Hw.
  - change (narrow (Just o :: suf)) with (o :: narrow suf).
    assert (Hstep : forall x, x ∈ map id coll \/ x ∈ map id (narrow (pre ++ [Just o])%list)
              <-> x ∈ w \/ x = id o).
    { intros x. rewrite narrow_app, map_app, elem_of_app. unfold narrow at 2. simpl.
      rewrite list_elem_of_singleton, Hw. tauto. }
    cbn [filter_st]. unfold notYetCollected at 1. unfold getOrderIdentifier at 1 2.
    unfold acceptedAt at 1. rewrite Htake.
    destruct (includes w (id o)) eqn:Hin.
    + apply includes_elem_of in Hin.
      destruct (filter_st notYetCollected (narrow suf) w) as [r s2] eqn:Hr.
      rewrite decide_False by (rewrite Hw in Hin; tauto).
      simpl. specialize (Hshift w). rewrite Hr in Hshift. apply Hshift.
      intros x. rewrite Hstep. split; [by left|]. intros [H| ->]; done.
    + apply includes_false in Hin.
      destruct (filter_st notYetCollected (narrow suf) (w ++ [id o])%list)
        as [r s2] eqn:Hr.
      rewrite decide_True by (rewrite Hw in Hin; tauto).
      simpl. f_equal. specialize (Hshift (w ++ [id o])%list).
      rewrite Hr in Hshift. apply Hshift.
      intros x. rewrite Hstep, elem_of_app, list_elem_of_singleton. tauto.
Qed.

(** What the call returns, in terms of the elements of the arrays. *)
Lemma addOrderToCollectionIfMissing_unfold l cands st :
  addOrderToCollectionIfMissing l cands st
  = match narrow cands with
    | [] => (l, st)
    | _ :: _ =>
        alloc (fst (filter_st notYetCollected (narrow cands)
                      (map getOrderIdentifier (st !!! l))) ++ st !!! l)%list st
    end.
Proof.
  unfold addOrderToCollectionIfMissing. rewrite narrow_filter_isPresent.
  by destruct (narrow cands).
Qed.

Lemma alloc_fresh (xs : list (Obj string D)) st :
  st !! (alloc xs st).1 = None /\
  (alloc xs st).2 = <[(alloc xs st).1 := xs]> st.
Proof.
  unfold alloc. simpl. split; [|done].
  apply not_elem_of_dom. apply is_fresh.
Qed.

End Merge.

(** ** Collection merge: the claims *)

(** The call on elements: the returned reference holds the accepted
    candidates followed by the collection, and the argument array is left as
    it was. *)
Lemma addOrderToCollectionIfMissing_elements {D : Type}
    (st : gmap loc (list (Obj string D))) (l : loc)
    (coll : list (Obj string D)) (cands : list (Nullish (Obj string D))) :
  st !! l = Some coll ->
  (addOrderToCollectionIfMissing l cands st).2
    !! (addOrderToCollectionIfMissing l cands st).1
  = Some (fst (filter_st notYetCollected (narrow cands)
                (map getOrderIdentifier coll)) ++ coll)%list /\
  (addOrderToCollectionIfMissing l cands st).2 !! l = Some coll.
Proof.
  intros Hl. rewrite addOrderToCollectionIfMissing_unfold.
  rewrite (lookup_total_correct _ _ _ Hl).
  destruct (narrow cands) as [|o orders] eqn:Hn; [done|].
  destruct (alloc_fresh
              ((filter_st notYetCollected (o :: orders)
                  (map getOrderIdentifier coll)).1 ++ coll)%list st) as [Hfresh ->].
  rewrite lookup_insert_eq. split; [done|].
  rewrite lookup_insert_ne; [done|]. intros Heq. rewrite Heq in Hfresh. congruence.
Qed.

(** C2. The merge drops the null and absent candidates and every candidate
    whose identifier is in the collection or in an earlier candidate of the
    call, and returns the accepted candidates, in their order, in front of the
    unchanged collection; the call on [[{id:"1"}]] with [{id:"2"}], [{id:"1"}],
    [{id:"3"}] returns [[{id:"2"}, {id:"3"}, {id:"1"}]]. *)
Theorem addOrderToCollectionIfMissing_merge :
  (forall (D : Type) (st : gmap loc (list (Obj string D))) (l : loc)
          (coll : list (Obj string D)) (cands : list (Nullish (Obj string D))),
      st !! l = Some coll ->
      let '(l', st') := addOrderToCollectionIfMissing l cands st in
      st' !! l' = Some (mergedBySpec coll cands) /\ st' !! l = Some coll) /\
  (let st0 : gmap loc (list (Obj string string)) := {[ 1%positive := [withId "1"] ]} in
   let '(l', st') := addOrderToCollectionIfMissing 1%positive
                       [Just (withId "2"); Just (withId "1"); Just (withId "3")] st0 in
   st' !! l' = Some [withId "2"; withId "3"; withId "1"]).
Proof.
  split; [|vm_compute; reflexivity].
  intros D st l coll cands Hl.
  destruct (addOrderToCollectionIfMissing_elements st l coll cands Hl) as [Hnew Hold].
  destruct (addOrderToCollectionIfMissing l cands st) as [l' st'] eqn:Hcall.
  simpl in Hnew, Hold. split; [|done].
  rewrite Hnew. unfold mergedBySpec. do 2 f_equal.
  rewrite (filter_st_acceptedAt coll cands [] (map getOrderIdentifier coll)); [done|].
  intros x. unfold narrow. simpl. split; [by left|].
  intros [H|H]; [done|]. by apply elem_of_nil in H.
Qed.

Lemma addOrderToCollectionIfMissing_merge_witness :
  let st0 : gmap loc (list (Obj string string)) := {[ 1%positive := [withId "1"] ]} in
  let cands := [JsNull; Just (withId "2"); JsUndefined; Just (withId "2"); Just (withId "1")] in
  st0 !! 1%positive = Some [withId "1"] /\
  (let '(l', st') := addOrderToCollectionIfMissing 1%positive cands st0 in
   st' !! l' = Some (mergedBySpec [withId "1"] cands) /\
   st' !! 1%positive = Some [withId "1"]).
Proof.
  split; [reflexivity|].
  apply (proj1 addOrderToCollectionIfMissing_merge). reflexivity.
Defined.

(** C9. A collection with pairwise distinct identifiers keeps pairwise
    distinct identifiers through a call, whatever the candidates, and through
    any sequence of calls on the collection returned by the call before. *)
Theorem addOrderToCollectionIfMissing_distinct :
  forall (D : Type) (batches : list (list (Nullish (Obj string D))))
         (st : gmap loc (list (Obj string D))) (l : loc) (coll : list (Obj string D)),
    st !! l = Some coll ->
    NoDup (map getOrderIdentifier coll) ->
    (forall cands : list (Nullish (Obj string D)),
        let '(l', st') := addOrderToCollectionIfMissing l cands st in
        exists coll', st' !! l' = Some coll' /\ NoDup (map getOrderIdentifier coll')) /\
    (let '(l', st') := mergeBatches l batches st in
     exists coll', st' !! l' = Some coll' /\ NoDup (map getOrderIdentifier coll')).
Proof.
  intros D batches.
  assert (Hone : forall st l coll cands,
    st !! l = Some coll -> NoDup (map getOrderIdentifier coll) ->
    exists coll',
      (addOrderToCollectionIfMissing l cands st).2
        !! (addOrderToCollectionIfMissing l cands st).1 = Some coll' /\
      NoDup (map (@getOrderIdentifier D) coll')).
  { intros st l coll cands Hl Hnd.
    destruct (addOrderToCollectionIfMissing_elements st l coll cands Hl) as [Hnew _].
    eexists. split; [exact Hnew|].
    destruct (filter_st_distinct (narrow cands) (map getOrderIdentifier coll))
      as [Hacc Hfresh].
    rewrite map_app. apply NoDup_app. repeat split; [done| |done].
    intros x Hx. by apply Hfresh. }
  induction batches as [|cands batches IH]; intros st l coll Hl Hnd.
  - split; [|by exists coll].
    intros cands. destruct (Hone st l coll cands Hl Hnd) as (coll' & H1 & H2).
    destruct (addOrderToCollectionIfMissing l cands st). by exists coll'.
  - split.
    + intros cands'. destruct (Hone st l coll cands' Hl Hnd) as (coll' & H1 & H2).
      destruct (addOrderToCollectionIfMissing l cands' st). by exists coll'.
    + simpl. destruct (Hone st l coll cands Hl Hnd) as (coll' & H1 & H2).
      destruct (addOrderToCollectionIfMissing l cands st) as [l1 st1].
      simpl in H1. exact (proj2 (IH st1 l1 coll' H1 H2)).
Qed.

Lemma addOrderToCollectionIfMissing_distinct_witness :
  let st0 : gmap loc (list (Obj string string)) :=
    {[ 1%positive := [withId "1"; withId "4"] ]} in
  let batches := [[Just (withId "2"); Just (withId "1"); Just (withId "2")];
                  [JsNull; Just (withId "4"); Just (withId "3")];
                  [Just (withId "3"); Just (withId "2")]] in
  st0 !! 1%positive = Some [withId "1"; withId "4"] /\
  NoDup (map getOrderIdentifier [withId "1"; withId "4"]) /\
  (let '(l', st') := mergeBatches 1%positive batches st0 in
   exists coll', st' !! l' = Some coll' /\ NoDup (map getOrderIdentifier coll')).
Proof.
  intros st0 batches.
  assert (Hnd : NoDup (map getOrderIdentifier [withId "1"; withId "4"])).
  { apply NoDup_ListNoDup. repeat constructor; simpl; intuition discriminate. }
  split; [reflexivity|]. split; [exact Hnd|].
  exact (proj2 (addOrderToCollectionIfMissing_distinct string batches st0 1%positive
                  [withId "1"; withId "4"] eq_refl Hnd)).
Defined.

(** When every order handed to the second [filter] is already collected,
    nothing is accepted and the working array is not extended. *)
Lemma filter_st_all_collected {D : Type} (orders : list (Obj string D))
    (w : list string) :
  (forall o, o ∈ orders -> getOrderIdentifier o ∈ w) ->
  filter_st notYetCollected orders w = ([], w).
Proof.
  induction orders as [|o orders IH]; intros Hall; [done|].
  simpl. unfold notYetCollected at 1.
  assert (Hin : includes w (getOrderIdentifier o) = true).
  { apply includes_elem_of. apply Hall. by left. }
  rewrite Hin, IH; [done|]. intros o' Ho'. apply Hall. by right.
Qed.

(** C3, as stated, fails: a candidate that duplicates an identifier of the
    collection is not accepted, and yet the call returns a new array. *)
Lemma addOrderToCollectionIfMissing_duplicate_allocates :
  let st0 : gmap loc (list (Obj string string)) := {[ 1%positive := [withId "1"] ]} in
  let '(l', st') := addOrderToCollectionIfMissing 1%positive [Just (withId "1")] st0 in
  mergedBySpec [withId "1"] [Just (withId "1")] = [withId "1"] /\
  l' <> 1%positive /\
  st' !! l' = Some [withId "1"].
Proof. vm_compute. repeat split; [discriminate]. Qed.

(** C3, amended. When no candidate is accepted, the call returns the
    reference it was given, and makes no new collection, if every candidate is
    null or absent; if some candidate is present (all of them duplicates of the
    collection), it returns a new array with the elements of the collection in
    their order. *)
Theorem addOrderToCollectionIfMissing_reference :
  forall (D : Type) (st : gmap loc (list (Obj string D))) (l : loc)
         (coll : list (Obj string D)) (cands : list (Nullish (Obj string D))),
    st !! l = Some coll ->
    (forall o, Just o ∈ cands ->
               getOrderIdentifier o ∈ map getOrderIdentifier coll) ->
    let '(l', st') := addOrderToCollectionIfMissing l cands st in
    if forallb (fun c => negb (isPresent c)) cands
    then l' = l /\ st' = st
    else l' <> l /\ st !! l' = None /\ st' = <[l' := coll]> st.
Proof.
  intros D st l coll cands Hl Hdup.
  rewrite addOrderToCollectionIfMissing_unfold.
  rewrite (lookup_total_correct _ _ _ Hl).
  destruct (forallb (fun c => negb (isPresent c)) cands) eqn:Hnone.
  - apply narrow_nil_iff in Hnone. by rewrite Hnone.
  - destruct (narrow cands) as [|o orders] eqn:Hn.
    { apply narrow_nil_iff in Hn. congruence. }
    rewrite filter_st_all_collected.
    2: { intros o' Ho'. apply Hdup. apply narrow_elem_of. by rewrite Hn. }
    simpl. destruct (alloc_fresh coll st) as [Hfresh _].
    unfold alloc in *. simpl in *.
    repeat split; [|done]. intros Heq. rewrite Heq in Hfresh. congruence.
Qed.

Lemma addOrderToCollectionIfMissing_reference_witness :
  let st0 : gmap loc (list (Obj string string)) := {[ 1%positive := [withId "1"] ]} in
  let cands := [JsNull; Just (withId "1"); JsUndefined] in
  st0 !! 1%positive = Some [withId "1"] /\
  (forall o, Just o ∈ cands ->
             getOrderIdentifier o ∈ map getOrderIdentifier [withId "1"]) /\
  (let '(l', st') := addOrderToCollectionIfMissing 1%positive cands st0 in
   l' <> 1%positive /\ st0 !! l' = None /\ st' = <[l' := [withId "1"]]> st0).
Proof.
  intros st0 cands.
  assert (Hdup : forall o, Just o ∈ cands ->
                   getOrderIdentifier o ∈ map getOrderIdentifier [withId "1"]).
  { intros o Ho. apply elem_of_cons in Ho as [Ho|Ho]; [discriminate|].
    apply elem_of_cons in Ho as [Ho|Ho].
    - injection Ho as ->. by left.
    - apply elem_of_cons in Ho as [Ho|Ho]; [discriminate|]. by apply elem_of_nil in Ho. }
  split; [reflexivity|]. split; [exact Hdup|].
  exact (addOrderToCollectionIfMissing_reference string st0 1%positive
           [withId "1"] cands eq_refl Hdup).
Defined.

(** The call of the specification's example, with [null] and [undefined]. *)
Example addOrderToCollectionIfMissing_null_undefined :
  let st0 : gmap loc (list (Obj string string)) := {[ 1%positive := [withId "1"] ]} in
  addOrderToCollectionIfMissing 1%positive [JsNull; JsUndefined] st0 = (1%positive, st0).
Proof. reflexivity. Qed.

(** ** Dates: the claims *)




(** The reference instance reads back what it prints, also for a year of five
    digits and for a year before the year 0. *)
Example IsoDate_reads_expanded_years :
  @dayjs IsoDate.lib "+010000-01-01T00:00:00.000Z" = IsoDate.Valid 253402300800000 /\
  @toJSON IsoDate.lib (IsoDate.Valid 253402300800000) = Some "+010000-01-01T00:00:00.000Z" /\
  @toJSON IsoDate.lib (IsoDate.Valid (-62198755200000)) = Some "-000001-01-01T00:00:00.000Z" /\
  @dayjs IsoDate.lib "-000001-01-01T00:00:00.000Z" = IsoDate.Valid (-62198755200000) /\
  @dayjs IsoDate.lib "2023-02-30T00:00:00Z" = @dayjs IsoDate.lib "2023-03-02T00:00:00Z".
Proof. vm_compute. repeat split. Qed.

(** C6, as stated, fails: the payload of a partial update whose input has no
    date field carries a date field, set to [null]. *)
Lemma partialUpdate_sends_null_date :
  let this := newOrderService (fun path => "/" ++ path) in
  let order : Obj string IsoDate.t := mkObj "7" Absent {[ "comment" := JStr "late" ]} in
  date order = Absent /\
  payload (request (partialUpdate (L := IsoDate.lib) (Params := unit) this order))
  = Some (mkObj "7" Null {[ "comment" := JStr "late" ]}).
Proof. split; reflexivity. Qed.

(** C6, amended.  The payload of [partialUpdate] always carries a date
    field: the string [toJSON] gives for a present valid date, and an explicit
    [null] when the input has no date, an undefined or null date, or an invalid
    one; the identifier and the other fields are forwarded as given, in a
    [PATCH] request addressed by the identifier. *)
Theorem partialUpdate_payload :
  forall (L : DateLib) (Params : Type) (this : OrderService)
         (i : string) (fields : gmap string JsVal),
    let sent (d : Slot Dayjs) :=
      payload (request (partialUpdate (Params := Params) this (mkObj i d fields))) in
    sent Absent = Some (mkObj i Null fields) /\
    sent Undefined = Some (mkObj i Null fields) /\
    sent Null = Some (mkObj i Null fields) /\
    (forall d : Dayjs,
        sent (Val d)
        = Some (mkObj i (match toJSON d with Some s => Val s | None => Null end) fields)) /\
    (forall d : Slot Dayjs,
        let r := request (partialUpdate (Params := Params) this (mkObj i d fields)) in
        method r = PATCH /\ target r = resourceUrl this ++ "/" ++ i /\ params r = None).
Proof.
  intros L Params this i fields sent. repeat split.
  intros d. unfold sent, partialUpdate, convertDateFromClient. simpl.
  by destruct (toJSON d).
Qed.

(** C8. The response transformation of [query] deserializes each element of
    the response array on its own and keeps the order of the array: the
    element at an index of the result is the element at that index of the
    response with its wire date read by the date library (or [undefined] when
    the element has no date, a null one or the empty string), its identifier
    and its other fields as they came, whatever the elements around it; a null
    body stays null (not an empty array), and the rest of the envelope is
    untouched. *)
Theorem query_response_transformation :
  forall (L : DateLib) (Req Params : Type) (createRequestOption : option Req -> Params)
         (this : OrderService) (req : option Req)
         (st : Z) (txt : string) (hs : list (string * string)) (u : option string),
    let transform := project (query createRequestOption this req) in
    let deserialized (item : Obj string string) : Obj string Dayjs :=
      mkObj (id item)
        match date item with
        | Val s => if String.eqb s "" then Undefined else Val (dayjs s)
        | _ => Undefined
        end
        (others item) in
    transform (mkResponse st txt hs u None) = mkResponse st txt hs u None /\
    body (transform (mkResponse st txt hs u None)) <> Some [] /\
    (forall items : list (Obj string string),
        exists out : list (Obj string Dayjs),
          transform (mkResponse st txt hs u (Some items))
            = mkResponse st txt hs u (Some out) /\
          length out = length items /\
          forall k : nat, out !! k = deserialized <$> items !! k) /\
    (forall (before after : list (Obj string string)) (i : string)
            (fields : gmap string JsVal) (c : ascii) (s : string),
        body (transform (mkResponse st txt hs u
                (Some (before ++ mkObj i (Val (String c s)) fields :: after)%list)))
          ≫= (.!! length before)
        = Some (mkObj i (Val (dayjs (String c s))) fields)) /\
    (forall (before after : list (Obj string string)) (i : string)
            (fields : gmap string JsVal),
        let at_index (d : Slot string) :=
          body (transform (mkResponse st txt hs u
                  (Some (before ++ mkObj i d fields :: after)%list)))
            ≫= (.!! length before) in
        at_index Absent = Some (mkObj i Undefined fields) /\
        at_index Null = Some (mkObj i Undefined fields) /\
        at_index (Val "") = Some (mkObj i Undefined fields)).
Proof.
  intros L Req Params createRequestOption this req st txt hs u transform deserialized.
  assert (Hconv : forall item : Obj string string,
                    convertDateFromServer item = deserialized item).
  { intros [i [| | |s] fields]; try reflexivity.
    unfold convertDateFromServer, deserialized. simpl.
    by destruct (String.eqb s ""). }
  assert (Hat : forall (before after : list (Obj string string)) item,
    body (transform (mkResponse st txt hs u (Some (before ++ item :: after)%list)))
      ≫= (.!! length before)
    = Some (deserialized item)).
  { intros before after item. simpl.
    rewrite list_lookup_fmap, lookup_app_r, Nat.sub_diag by lia.
    simpl. by rewrite Hconv. }
  split; [reflexivity|]. split; [discriminate|]. split.
  { intros items. exists (map convertDateFromServer items).
    split; [reflexivity|]. split; [apply length_map|].
    intros k. rewrite list_lookup_fmap. destruct (items !! k) as [item|]; [|done].
    simpl. by rewrite Hconv. }
  split.
  { intros before after i fields c s. by rewrite Hat. }
  intros before after i fields at_index. unfold at_index.
  by rewrite !Hat.
Qed.

(** ** The fan-out join: auxiliary facts *)

Section JoinFacts.
Context {R E : Type}.
Implicit Types (outs : list (Outcome R E)) (ph : list Phase) (j : Join R).
Implicit Types (sched : list Arrival) (a : Arrival).

Lemma countPhase_insert (f : Phase -> bool) ph i p q :
  ph !! i = Some p ->
  (countPhase f (<[i := q]> ph) + (if f p then 1 else 0)
   = countPhase f ph + (if f q then 1 else 0))%nat.
Proof.
  revert i. induction ph as [|p0 ph IH]; intros [|i] Hi; simpl in *; try done.
  - injection Hi as ->. lia.
  - specialize (IH i Hi). lia.
Qed.

Lemma countPhase_lookup (f : Phase -> bool) ph i p :
  ph !! i = Some p -> f p = true -> (0 < countPhase f ph)%nat.
Proof.
  revert i. induction ph as [|p0 ph IH]; intros [|i] Hi Hf; simpl in *; try done.
  - injection Hi as ->. rewrite Hf. lia.
  - specialize (IH i Hi Hf). lia.
Qed.

Lemma countPhase_zero (f : Phase -> bool) ph i p :
  countPhase f ph = 0%nat -> ph !! i = Some p -> f p = false.
Proof.
  intros Hz Hi. destruct (f p) eqn:Hf; [|done].
  pose proof (countPhase_lookup f ph i p Hi Hf). lia.
Qed.

Lemma pending_lookup ph k :
  ph !! k = Some Pending -> (0 < pending ph)%nat /\ (0 < unfinished ph)%nat.
Proof.
  intros Hk. split.
  - by apply (countPhase_lookup _ ph k Pending).
  - by apply (countPhase_lookup _ ph k Pending).
Qed.

Lemma pending_le_unfinished ph : (pending ph <= unfinished ph)%nat.
Proof.
  unfold pending, unfinished. induction ph as [|[] ph IH]; simpl; lia.
Qed.

Lemma joinRun_closed j (events : list (nat * Notification R E)) :
  closed j = true -> joinRun j events = (j, []).
Proof.
  intros Hc. induction events as [|[i n] events IH]; [done|].
  simpl. unfold joinStep. by rewrite Hc, IH.
Qed.

Lemma joinInit_inv outs :
  outs <> [] ->
  joinInit (A := R) (E := E) (length outs)
    = (mkJoin (replicate (length outs) None) (length outs) (length outs) false, []) /\
  joinInv outs (replicate (length outs) Pending)
    (mkJoin (replicate (length outs) None) (length outs) (length outs) false).
Proof.
  intros Hne. assert (Hpos : (0 < length outs)%nat).
  { destruct outs; [done|simpl; lia]. }
  split.
  - unfold joinInit. destruct (Nat.eqb_spec (length outs) 0); [lia|done].
  - assert (Hcount : forall n, pending (replicate n Pending) = n /\
                               unfinished (replicate n Pending) = n).
    { induction n as [|n [IH1 IH2]]; [done|].
      unfold pending, unfinished in *. simpl. by rewrite IH1, IH2. }
    destruct (Hcount (length outs)) as [Hp Hu].
    unfold joinInv. simpl. rewrite Hp, Hu, !length_replicate.
    repeat split; try done.
    + intros i Hi. apply lookup_replicate in Hi as [_ Hi].
      by apply lookup_replicate.
    + intros i [Hi|Hi]; apply lookup_replicate in Hi as [Hi _]; done.
Qed.

(** When no source is pending, the latest values are the responses of the
    requests, in the order of the sources. *)
Lemma joinInv_values outs ph j :
  joinInv outs ph j -> pending ph = 0%nat ->
  map Ok (omap (fun v => v) (values j)) = outs.
Proof.
  intros (_ & Hlen & Hvals & _ & Hdone & _) Hp.
  assert (Hall : Forall2 (fun v o => exists r, v = Some r /\ o = Ok r) (values j) outs).
  { apply Forall2_same_length_lookup. split; [done|].
    intros i v o Hv Ho.
    assert (Hlt : (i < length ph)%nat).
    { rewrite Hlen. by apply lookup_lt_Some in Ho. }
    apply lookup_lt_is_Some in Hlt as [p Hphase].
    pose proof (countPhase_zero _ ph i p Hp Hphase) as Hnp.
    destruct (Hdone i) as (r & Hr1 & Hr2).
    { destruct p; [done|by left|by right]. }
    exists r. split; congruence. }
  clear -Hall. induction Hall as [|v o vs os (r & -> & ->) _ IH]; [done|].
  rewrite <- IH. reflexivity.
Qed.

(** One arrival: the join fails with the error of the request, or stores
    the response and emits once nothing is pending, or counts the
    completion and completes with the last one. *)
Lemma join_arrival outs ph j a ph1 :
  joinInv outs ph j -> arrive outs ph a = Some ph1 ->
  exists i n j1 out1,
    notification outs a = Some (i, n) /\ joinStep j i n = (j1, out1) /\
    ((exists e, a = Responds i /\ outs !! i = Some (Failed e) /\
                out1 = [Error e] /\ closed j1 = true) \/
     (exists r, a = Responds i /\ outs !! i = Some (Ok r) /\
                (pending ph1 + 1 = pending ph)%nat /\ joinInv outs ph1 j1 /\
                out1 = if (pending ph1 =? 0)%nat
                       then [Next (omap (fun v => v) (values j1))] else []) \/
     (a = Completes i /\ pending ph1 = pending ph /\
      ((unfinished ph1 = 0%nat /\ closed j1 = true /\ out1 = [Complete]) \/
       (joinInv outs ph1 j1 /\ out1 = [])))).
Proof.
  intros Hinv Harr.
  pose proof Hinv as (Hopen & Hlen & Hvals & Hpend & Hdone & Hrem & Hact & Hpos).
  destruct a as [i|i]; simpl in Harr.
  - destruct (ph !! i) as [[| |]|] eqn:Hphase; try done.
    destruct (outs !! i) as [[r|e]|] eqn:Hout; try done.
    + (* the response arrives *)
      injection Harr as <-.
      pose proof (countPhase_insert (fun p => match p with Pending => true | _ => false end)
                    ph i Pending Emitted Hphase) as Hp.
      pose proof (countPhase_insert (fun p => match p with Done => false | _ => true end)
                    ph i Pending Emitted Hphase) as Hu.
      fold (pending (<[i:=Emitted]> ph)) (pending ph) in Hp.
      fold (unfinished (<[i:=Emitted]> ph)) (unfinished ph) in Hu.
      simpl in Hp, Hu.
      exists i, (Next r). eexists. eexists. split; [simpl; by rewrite Hout|].
      split.
      { unfold joinStep. rewrite Hopen, (Hpend i Hphase). reflexivity. }
      right. left. exists r. repeat split; simpl; try done; try lia.
      * by rewrite length_insert.
      * by rewrite length_insert.
      * intros k Hk. destruct (decide (k = i)) as [->|Hne].
        -- rewrite list_lookup_insert_eq in Hk; [done|by apply lookup_lt_Some in Hphase].
        -- rewrite list_lookup_insert_ne in Hk by done.
           rewrite list_lookup_insert_ne by done. by apply Hpend.
      * intros k Hk. destruct (decide (k = i)) as [->|Hne].
        -- exists r. split; [done|]. apply list_lookup_insert_eq.
           rewrite Hvals, <- Hlen. by apply lookup_lt_Some in Hphase.
        -- rewrite !list_lookup_insert_ne in Hk by done.
           rewrite list_lookup_insert_ne by done. by apply Hdone.
      * replace (remainingFirstValues j - 1)%nat with (pending (<[i:=Emitted]> ph)) by lia.
        done.
    + (* the request fails *)
      injection Harr as <-.
      exists i, (Error e). eexists. eexists. split; [simpl; by rewrite Hout|].
      split; [unfold joinStep; rewrite Hopen; reflexivity|].
      left. by exists e.
  - destruct (ph !! i) as [[| |]|] eqn:Hphase; try done.
    injection Harr as <-.
    pose proof (countPhase_insert (fun p => match p with Pending => true | _ => false end)
                  ph i Emitted Done Hphase) as Hp.
    pose proof (countPhase_insert (fun p => match p with Done => false | _ => true end)
                  ph i Emitted Done Hphase) as Hu.
    fold (pending (<[i:=Done]> ph)) (pending ph) in Hp.
    fold (unfinished (<[i:=Done]> ph)) (unfinished ph) in Hu.
    simpl in Hp, Hu.
    assert (Hact' : (active j - 1)%nat = unfinished (<[i:=Done]> ph)) by lia.
    exists i, Complete.
    destruct (Nat.eqb_spec (unfinished (<[i:=Done]> ph)) 0) as [Hz|Hnz].
    + exists (mkJoin (values j) (active j - 1) (remainingFirstValues j) true), [Complete].
      split; [done|]. split.
      { unfold joinStep. rewrite Hopen, Hact', Hz. reflexivity. }
      right. right. split; [done|]. split; [lia|]. by left.
    + exists (mkJoin (values j) (active j - 1) (remainingFirstValues j) false), [].
      split; [done|]. split.
      { unfold joinStep. rewrite Hopen, Hact'.
        destruct (Nat.eqb_spec (unfinished (<[i:=Done]> ph)) 0); [lia|reflexivity]. }
      right. right. split; [done|]. split; [lia|].
      right. split; [|done]. repeat split; simpl; try done; try lia.
      * by rewrite length_insert.
      * intros k Hk. destruct (decide (k = i)) as [->|Hne].
        -- rewrite list_lookup_insert_eq in Hk; [done|by apply lookup_lt_Some in Hphase].
        -- rewrite list_lookup_insert_ne in Hk by done. by apply Hpend.
      * intros k Hk. destruct (decide (k = i)) as [->|Hne].
        -- apply Hdone. by left.
        -- rewrite !list_lookup_insert_ne in Hk by done. by apply Hdone.
Qed.

Lemma map_Ok_inj (xs ys : list R) : map (@Ok R E) xs = map Ok ys -> xs = ys.
Proof.
  revert ys. induction xs as [|x xs IH]; intros [|y ys] H; simpl in H; try done.
  injection H as -> H. by rewrite (IH ys H).
Qed.

Lemma arriveAll_pending_le outs sched : forall ph ph',
  arriveAll outs ph sched = Some ph' -> (pending ph' <= pending ph)%nat.
Proof.
  induction sched as [|a sched IH]; intros ph ph' Hall; simpl in Hall.
  - injection Hall as ->. lia.
  - destruct (arrive outs ph a) as [ph1|] eqn:Harr; [|done].
    specialize (IH ph1 ph' Hall).
    assert (pending ph1 <= pending ph)%nat; [|lia].
    destruct a as [i|i]; simpl in Harr;
      destruct (ph !! i) as [[| |]|] eqn:Hphase; try done.
    + destruct (outs !! i) as [[r|e]|]; try done; injection Harr as <-.
      * pose proof (countPhase_insert (fun p => match p with Pending => true | _ => false end)
                      ph i Pending Emitted Hphase) as Hp.
        fold (pending (<[i:=Emitted]> ph)) (pending ph) in Hp. simpl in Hp. lia.
      * pose proof (countPhase_insert (fun p => match p with Pending => true | _ => false end)
                      ph i Pending Done Hphase) as Hp.
        fold (pending (<[i:=Done]> ph)) (pending ph) in Hp. simpl in Hp. lia.
    + injection Harr as <-.
      pose proof (countPhase_insert (fun p => match p with Pending => true | _ => false end)
                    ph i Emitted Done Hphase) as Hp.
      fold (pending (<[i:=Done]> ph)) (pending ph) in Hp. simpl in Hp. lia.
Qed.

(** A request that is answered later in the schedule is pending now. *)
Lemma arriveAll_responds_pending outs sched k : forall ph ph',
  arriveAll outs ph sched = Some ph' -> Responds k ∈ sched ->
  ph !! k = Some Pending.
Proof.
  induction sched as [|a sched IH]; intros ph ph' Hall Hin.
  - by apply elem_of_nil in Hin.
  - simpl in Hall. destruct (arrive outs ph a) as [ph1|] eqn:Harr; [|done].
    apply elem_of_cons in Hin as [<-|Hin].
    + simpl in Harr. by destruct (ph !! k) as [[| |]|].
    + specialize (IH ph1 ph' Hall Hin).
      assert (Hupd : exists i q, q <> Pending /\ ph1 = <[i := q]> ph) .
      { destruct a as [i|i]; simpl in Harr;
          destruct (ph !! i) as [[| |]|]; try done.
        - destruct (outs !! i) as [[r|e]|]; try done; injection Harr as <-.
          + by exists i, Emitted.
          + by exists i, Done.
        - injection Harr as <-. by exists i, Done. }
      destruct Hupd as (i & q & Hq & ->).
      destruct (decide (k = i)) as [->|Hne].
      * assert (Hlt : (i < length ph)%nat).
        { apply lookup_lt_Some in IH. by rewrite length_insert in IH. }
        rewrite list_lookup_insert_eq in IH by done. congruence.
      * by rewrite list_lookup_insert_ne in IH.
Qed.

(** The subscriber has the combined result only when no request is
    pending any more, and the result is the responses in source order. *)
Lemma joinRun_result outs sched : forall ph ph' j vs,
  joinInv outs ph j -> arriveAll outs ph sched = Some ph' ->
  Next vs ∈ snd (joinRun j (omap (notification outs) sched)) ->
  pending ph' = 0%nat /\ map Ok vs = outs.
Proof.
  induction sched as [|a sched IH]; intros ph ph' j vs Hinv Hall Hnext.
  - simpl in Hnext. by apply elem_of_nil in Hnext.
  - simpl in Hall. destruct (arrive outs ph a) as [ph1|] eqn:Harr; [|done].
    destruct (join_arrival outs ph j a ph1 Hinv Harr)
      as (i & n & j1 & out1 & Hn & Hstep & Hcases).
    cbn [omap list_omap] in Hnext. rewrite Hn in Hnext.
    cbn [joinRun] in Hnext. rewrite Hstep in Hnext.
    destruct (joinRun j1 (omap (notification outs) sched)) as [j2 out2] eqn:Hrun.
    simpl in Hnext. apply elem_of_app in Hnext.
    destruct Hcases as [(e & _ & _ & -> & Hc)|[(r & _ & _ & _ & Hinv1 & ->)|(_ & _ & Hc)]].
    + rewrite (joinRun_closed j1 _ Hc) in Hrun. injection Hrun as <- <-.
      destruct Hnext as [Hnext|Hnext].
      * apply list_elem_of_singleton in Hnext. discriminate.
      * by apply elem_of_nil in Hnext.
    + destruct Hnext as [Hnext|Hnext].
      * destruct (Nat.eqb_spec (pending ph1) 0) as [Hz|Hnz].
        -- apply list_elem_of_singleton in Hnext. injection Hnext as ->.
           pose proof (arriveAll_pending_le outs sched ph1 ph' Hall).
           split; [lia|]. by apply (joinInv_values outs ph1).
        -- by apply elem_of_nil in Hnext.
      * apply (IH ph1 ph' j1 vs Hinv1 Hall). by rewrite Hrun.
    + destruct Hc as [(_ & Hc & ->)|(Hinv1 & ->)].
      * rewrite (joinRun_closed j1 _ Hc) in Hrun. injection Hrun as <- <-.
        destruct Hnext as [Hnext|Hnext].
        -- apply list_elem_of_singleton in Hnext. discriminate.
        -- by apply elem_of_nil in Hnext.
      * destruct Hnext as [Hnext|Hnext]; [by apply elem_of_nil in Hnext|].
        apply (IH ph1 ph' j1 vs Hinv1 Hall). by rewrite Hrun.
Qed.

(** When every request succeeds and every source has terminated, the
    subscriber has received the combined result, once, and the completion. *)
Lemma joinRun_success (rs : list R) sched : forall ph ph' j,
  joinInv (map (@Ok R E) rs) ph j ->
  arriveAll (map (@Ok R E) rs) ph sched = Some ph' ->
  unfinished ph' = 0%nat ->
  snd (joinRun j (omap (notification (map (@Ok R E) rs)) sched))
  = ((if (pending ph =? 0)%nat then [] else [Next rs]) ++ [Complete])%list.
Proof.
  induction sched as [|a sched IH]; intros ph ph' j Hinv Hall Hfin.
  - simpl in Hall. injection Hall as ->.
    destruct Hinv as (_ & _ & _ & _ & _ & _ & _ & Hpos). lia.
  - simpl in Hall.
    destruct (arrive (map Ok rs) ph a) as [ph1|] eqn:Harr; [|done].
    destruct (join_arrival _ ph j a ph1 Hinv Harr)
      as (i & n & j1 & out1 & Hn & Hstep & Hcases).
    cbn [omap list_omap]. rewrite Hn. cbn [joinRun]. rewrite Hstep.
    destruct (joinRun j1 (omap (notification (map Ok rs)) sched)) as [j2 out2] eqn:Hrun.
    simpl.
    destruct Hcases as [(e & _ & He & _)|[(r & _ & _ & Hp & Hinv1 & ->)|(_ & Hp & Hc)]].
    + rewrite list_lookup_fmap in He. by destruct (rs !! i).
    + specialize (IH ph1 ph' j1 Hinv1 Hall Hfin). rewrite Hrun in IH. simpl in IH.
      subst out2. destruct (Nat.eqb_spec (pending ph) 0) as [Hz|_]; [lia|].
      destruct (Nat.eqb_spec (pending ph1) 0) as [Hz1|_]; [|done].
      pose proof (joinInv_values _ ph1 j1 Hinv1 Hz1) as Hvs.
      apply map_Ok_inj in Hvs. by rewrite Hvs.
    + rewrite <- Hp. destruct Hc as [(Hz & Hc & ->)|(Hinv1 & ->)].
      * rewrite (joinRun_closed j1 _ Hc) in Hrun. injection Hrun as <- <-.
        pose proof (pending_le_unfinished ph1).
        destruct (Nat.eqb_spec (pending ph1) 0); [done|lia].
      * specialize (IH ph1 ph' j1 Hinv1 Hall Hfin). by rewrite Hrun in IH.
Qed.

(** When the failure of a request arrives, the subscriber receives the
    error of a failed request and nothing else. *)
Lemma joinRun_failure outs sched k e : forall ph ph' j,
  joinInv outs ph j -> arriveAll outs ph sched = Some ph' ->
  Responds k ∈ sched -> outs !! k = Some (Failed e) ->
  exists k' e', outs !! k' = Some (Failed e') /\
    snd (joinRun j (omap (notification outs) sched)) = [Error e'].
Proof.
  induction sched as [|a sched IH]; intros ph ph' j Hinv Hall Hin Hfail.
  - by apply elem_of_nil in Hin.
  - simpl in Hall. destruct (arrive outs ph a) as [ph1|] eqn:Harr; [|done].
    destruct (join_arrival outs ph j a ph1 Hinv Harr)
      as (i & n & j1 & out1 & Hn & Hstep & Hcases).
    cbn [omap list_omap]. rewrite Hn. cbn [joinRun]. rewrite Hstep.
    destruct (joinRun j1 (omap (notification outs) sched)) as [j2 out2] eqn:Hrun.
    simpl.
    destruct Hcases as [(e0 & _ & He0 & -> & Hc)|[(r & -> & Hr & _ & Hinv1 & ->)|(-> & _ & Hc)]].
    + rewrite (joinRun_closed j1 _ Hc) in Hrun. injection Hrun as <- <-.
      by exists i, e0.
    + apply elem_of_cons in Hin as [Heq|Hin]; [injection Heq as ->; congruence|].
      pose proof (arriveAll_responds_pending outs sched k ph1 ph' Hall Hin) as Hk.
      destruct (pending_lookup ph1 k Hk) as [Hpos _].
      destruct (Nat.eqb_spec (pending ph1) 0); [lia|].
      destruct (IH ph1 ph' j1 Hinv1 Hall Hin Hfail) as (k' & e' & Hk' & Hout).
      rewrite Hrun in Hout. by exists k', e'.
    + apply elem_of_cons in Hin as [Heq|Hin]; [discriminate|].
      pose proof (arriveAll_responds_pending outs sched k ph1 ph' Hall Hin) as Hk.
      destruct (pending_lookup ph1 k Hk) as [_ Hpos].
      destruct Hc as [(Hz & _)|(Hinv1 & ->)]; [lia|].
      destruct (IH ph1 ph' j1 Hinv1 Hall Hin Hfail) as (k' & e' & Hk' & Hout).
      rewrite Hrun in Hout. by exists k', e'.
Qed.

End JoinFacts.

(** ** Stock decrement on shipping: the claims *)

(** The joined observable of a non-empty array of sources starts open, in
    agreement with its sources. *)
Lemma subscribe_nonempty {S R E : Type} (srcs : list S)
    (backend : S -> Outcome R E) (schedule : list Arrival) :
  srcs <> [] ->
  subscribe (combineLatest srcs) backend schedule
  = snd (joinRun (mkJoin (replicate (length srcs) None) (length srcs) (length srcs) false)
           (omap (notification (map backend srcs)) schedule)) /\
  joinInv (map backend srcs) (replicate (length srcs) Pending)
    (mkJoin (replicate (length srcs) None) (length srcs) (length srcs) false).
Proof.
  intros Hne.
  assert (Hne' : map backend srcs <> []) by by destruct srcs.
  destruct (joinInit_inv (map backend srcs) Hne') as [Hinit Hinv].
  rewrite length_map in Hinit, Hinv. split; [|done].
  unfold subscribe. simpl. by rewrite Hinit.
Qed.

(** C5, as stated, fails for the empty sequence: the join completes and the
    subscriber never receives the (empty) sequence of response envelopes. *)
Lemma decrementGoodsCountOnShip_nil_gives_no_result :
  let backend : GoodUpdate -> Outcome (HttpResponse unit) HttpErrorResponse :=
    fun _ => Ok okResponse in
  let received := subscribe (decrementGoodsCountOnShip []) backend [] in
  schedulePhases (decrementGoodsCountOnShip []) backend [] = Some [] /\
  received = [Complete] /\
  (Next [] ∉ received) /\
  subscribeEach (R := HttpResponse unit) (E := HttpErrorResponse)
    (decrementGoodsCountOnShip []) [] [] = [Complete].
Proof.
  repeat split. intros H. apply list_elem_of_singleton in H. discriminate.
Qed.

(** The joined observable of a non-empty array of sources, with an outcome
    for each source. *)
Lemma subscribeEach_nonempty {S R E : Type} (srcs : list S)
    (outcomes : list (Outcome R E)) (schedule : list Arrival) :
  srcs <> [] -> length outcomes = length srcs ->
  subscribeEach (combineLatest srcs) outcomes schedule
  = snd (joinRun (mkJoin (replicate (length outcomes) None)
                    (length outcomes) (length outcomes) false)
           (omap (notification outcomes) schedule)) /\
  joinInv outcomes (replicate (length outcomes) Pending)
    (mkJoin (replicate (length outcomes) None) (length outcomes) (length outcomes) false).
Proof.
  intros Hne Hlen.
  assert (Hne' : outcomes <> []).
  { destruct outcomes; [|done]. by destruct srcs. }
  destruct (joinInit_inv outcomes Hne') as [Hinit Hinv].
  split; [|done]. unfold subscribeEach. simpl. by rewrite <- Hlen, Hinit.
Qed.

(** C5, amended.  For every non-empty sequence of goods the service issues
    one update per entry, with the entry's good and the difference
    [good_amount - good_in_order_amount] of the two numbers, in input order;
    whatever the outcome of each update and the order of the answers, the
    subscriber has a result only when every update has been answered, and the
    result is the responses in input order; when all updates succeed and
    complete, it receives that result and the completion; when the failure of
    an update arrives, it receives an error and no result, whatever the other
    updates did.  For the goods of the example the two calls carry the
    remainders 7 and 0. *)
Theorem decrementGoodsCountOnShip_join :
  forall (R E : Type) (outcomes : list (Outcome R E))
         (goodsInOrder : list IGoodInOrder) (schedule : list Arrival)
         (phases : list Phase),
    goodsInOrder <> [] ->
    length outcomes = length goodsInOrder ->
    schedulePhasesEach (decrementGoodsCountOnShip goodsInOrder) outcomes schedule
      = Some phases ->
    let calls := sources (decrementGoodsCountOnShip goodsInOrder) in
    let received :=
      subscribeEach (decrementGoodsCountOnShip goodsInOrder) outcomes schedule in
    length calls = length goodsInOrder /\
    (forall (k : nat) (g : IGoodInOrder),
        goodsInOrder !! k = Some g ->
        calls !! k = Some (updateAmountByGoodId (good_id g)
                             (good_amount g - good_in_order_amount g))) /\
    (forall vs : list R,
        Next vs ∈ received ->
        pending phases = 0%nat /\ map Ok vs = outcomes) /\
    (forall rs : list R,
        outcomes = map Ok rs -> unfinished phases = 0%nat ->
        received = [Next rs; Complete]) /\
    (forall (k : nat) (e : E),
        Responds k ∈ schedule -> outcomes !! k = Some (Failed e) ->
        exists (k' : nat) (e' : E),
          outcomes !! k' = Some (Failed e') /\ received = [Error e']) /\
    sources (decrementGoodsCountOnShip specGoods)
      = [updateAmountByGoodId "g1" 7; updateAmountByGoodId "g2" 0].
Proof.
  intros R E outcomes goods schedule phases Hne Hlen Hsched. cbv zeta.
  set (calls := sources (decrementGoodsCountOnShip goods)).
  assert (Hjoined : decrementGoodsCountOnShip goods = combineLatest calls) by reflexivity.
  assert (Hcalls : calls <> []).
  { unfold calls, decrementGoodsCountOnShip. simpl. by destruct goods. }
  assert (Hlen' : length outcomes = length calls).
  { unfold calls, decrementGoodsCountOnShip. simpl. by rewrite length_map. }
  destruct (subscribeEach_nonempty calls outcomes schedule Hcalls Hlen') as [Hsub Hinv].
  rewrite Hjoined in Hsched |- *. rewrite Hsub.
  unfold schedulePhasesEach in Hsched. simpl in Hsched. rewrite <- Hlen' in Hsched.
  split; [apply length_map|]. split.
  { intros k g Hk. unfold calls, decrementGoodsCountOnShip. simpl.
    by rewrite list_lookup_fmap, Hk. }
  split.
  { intros vs Hvs.
    exact (joinRun_result _ schedule _ phases _ vs Hinv Hsched Hvs). }
  split.
  { intros rs Hrs Hfin. rewrite Hrs in *.
    rewrite (joinRun_success rs schedule _ phases _ Hinv Hsched Hfin).
    assert (Hp : pending (replicate (length (map (@Ok R E) rs)) Pending) <> 0%nat).
    { destruct rs as [|r rs']; [by destruct calls|]. unfold pending. simpl. lia. }
    by destruct (Nat.eqb_spec (pending (replicate (length (map (@Ok R E) rs)) Pending)) 0). }
  split; [|reflexivity].
  intros k e Hk Hfail.
  exact (joinRun_failure _ schedule k e _ phases _ Hinv Hsched Hk Hfail).
Qed.

Lemma decrementGoodsCountOnShip_join_witness :
  let outcomes : list (Outcome (HttpResponse unit) HttpErrorResponse) :=
    [Ok (mkResponse 200 "g1" [] None None); Ok (mkResponse 200 "g2" [] None None)] in
  let schedule := [Responds 1; Responds 0; Completes 0; Completes 1] in
  specGoods <> [] /\
  length outcomes = length specGoods /\
  schedulePhasesEach (decrementGoodsCountOnShip specGoods) outcomes schedule
    = Some [Done; Done] /\
  subscribeEach (decrementGoodsCountOnShip specGoods) outcomes schedule
    = [Next [mkResponse 200 "g1" [] None None; mkResponse 200 "g2" [] None None];
       Complete].
Proof.
  intros outcomes schedule.
  assert (H1 : specGoods <> []) by discriminate.
  assert (H2 : length outcomes = length specGoods) by reflexivity.
  assert (H3 : schedulePhasesEach (decrementGoodsCountOnShip specGoods) outcomes schedule
               = Some [Done; Done]) by reflexivity.
  split; [exact H1|]. split; [exact H2|]. split; [exact H3|].
  destruct (decrementGoodsCountOnShip_join _ _ outcomes specGoods schedule
              [Done; Done] H1 H2 H3) as (_ & _ & _ & Hok & _).
  apply Hok; reflexivity.
Defined.

(** The difference is the one of JavaScript numbers: past 2^53 it is rounded,
    of fractions it is the nearest number, and two calls for the same good do
    not add up. *)
Example decrementGoodsCountOnShip_number_difference :
  sources (decrementGoodsCountOnShip
             [mkGoodInOrder "g" 9007199254740994 1; mkGoodInOrder "h" 0.75 0.5;
              mkGoodInOrder "g" 9007199254740994 1])
  = [updateAmountByGoodId "g" 9007199254740992; updateAmountByGoodId "h" 0.25;
     updateAmountByGoodId "g" 9007199254740992].
Proof. reflexivity. Qed.

(** C10. For the empty sequence of goods the returned observable completes
    without a value: the subscriber never receives a list of responses,
    whereas for every non-empty sequence whose updates all succeed and
    complete it receives the combined list. *)
Theorem decrementGoodsCountOnShip_completes_silently :
  (forall (R E : Type) (backend : GoodUpdate -> Outcome R E)
          (schedule : list Arrival) (vs : list R),
      subscribe (decrementGoodsCountOnShip []) backend schedule = [Complete] /\
      Next vs ∉ subscribe (decrementGoodsCountOnShip []) backend schedule) /\
  (forall (R E : Type) (backend : GoodUpdate -> Outcome R E)
          (goodsInOrder : list IGoodInOrder) (schedule : list Arrival)
          (phases : list Phase) (rs : list R),
      goodsInOrder <> [] ->
      schedulePhases (decrementGoodsCountOnShip goodsInOrder) backend schedule
        = Some phases ->
      unfinished phases = 0%nat ->
      map backend (sources (decrementGoodsCountOnShip goodsInOrder)) = map Ok rs ->
      Next rs ∈ subscribe (decrementGoodsCountOnShip goodsInOrder) backend schedule).
Proof.
  split.
  - intros R E backend schedule vs.
    assert (Hsub : subscribe (decrementGoodsCountOnShip []) backend schedule = [Complete]).
    { unfold subscribe. simpl. by rewrite joinRun_closed. }
    rewrite Hsub. split; [done|].
    intros H. apply list_elem_of_singleton in H. discriminate.
  - intros R E backend goods schedule phases rs Hne Hsched Hfin Hrs.
    set (calls := sources (decrementGoodsCountOnShip goods)) in *.
    assert (Hjoined : decrementGoodsCountOnShip goods = combineLatest calls) by reflexivity.
    assert (Hcalls : calls <> []).
    { unfold calls, decrementGoodsCountOnShip. simpl. by destruct goods. }
    destruct (subscribe_nonempty calls backend schedule Hcalls) as [Hsub Hinv].
    rewrite Hjoined in Hsched |- *.
    unfold schedulePhases in Hsched. simpl in Hsched.
    rewrite Hsub. rewrite Hrs in *.
    rewrite (joinRun_success rs schedule _ phases _ Hinv Hsched Hfin).
    assert (Hp : pending (replicate (length calls) Pending) <> 0%nat).
    { destruct calls as [|c calls']; [done|]. unfold pending. simpl. lia. }
    destruct (Nat.eqb_spec (pending (replicate (length calls) Pending)) 0); [done|].
    by left.
Qed.

Lemma decrementGoodsCountOnShip_completes_silently_witness :
  let backend : GoodUpdate -> Outcome (HttpResponse unit) HttpErrorResponse :=
    fun _ => Ok okResponse in
  let goods := [mkGoodInOrder "g1" 4 1] in
  let schedule := [Responds 0; Completes 0] in
  goods <> [] /\
  schedulePhases (decrementGoodsCountOnShip goods) backend schedule = Some [Done] /\
  unfinished [Done] = 0%nat /\
  map backend (sources (decrementGoodsCountOnShip goods)) = map Ok [okResponse] /\
  Next [okResponse] ∈ subscribe (decrementGoodsCountOnShip goods) backend schedule.
Proof.
  intros backend goods schedule.
  assert (H1 : goods <> []) by discriminate.
  split; [exact H1|]. split; [reflexivity|]. split; [reflexivity|].
  split; [reflexivity|].
  exact (proj2 decrementGoodsCountOnShip_completes_silently _ _ backend goods schedule
           [Done] [okResponse] H1 eq_refl eq_refl eq_refl).
Defined.

(** * Further properties of the service *)

(** ** Collection merge: what one call and a sequence of calls do *)

Section MergeCalls.
Context {D : Type}.
Implicit Types (o : Obj string D) (coll orders : list (Obj string D)).
Implicit Types (cands : list (Nullish (Obj string D))).
Implicit Types (w : list string) (st : gmap loc (list (Obj string D))).

(** The second [filter]: the working array ends with the identifiers it had
    and those of the orders, and the accepted orders carry the identifiers of
    the orders that the working array did not have. *)
Lemma filter_st_identifiers orders : forall w,
  (forall x, x ∈ (filter_st notYetCollected orders w).2
             <-> x ∈ w \/ x ∈ map getOrderIdentifier orders) /\
  (forall x, x ∈ map getOrderIdentifier (filter_st notYetCollected orders w).1
             <-> x ∈ map getOrderIdentifier orders /\ x ∉ w).
Proof.
  induction orders as [|o orders IH]; intros w.
  - simpl. split; intros x.
    + split; [by left|]. intros [H|H]; [done|by apply elem_of_nil in H].
    + split; [intros H; by apply elem_of_nil in H|].
      intros [H _]. by apply elem_of_nil in H.
  - cbn [filter_st]. unfold notYetCollected at 1 3.
    destruct (includes w (getOrderIdentifier o)) eqn:Hin.
    + apply includes_elem_of in Hin.
      destruct (IH w) as [IH1 IH2].
      destruct (filter_st notYetCollected orders w) as [r w']. simpl in *.
      split; intros x.
      * rewrite IH1, elem_of_cons. split; [tauto|].
        intros [H|[->|H]]; tauto.
      * rewrite IH2, elem_of_cons. split; [tauto|].
        intros [[->|H] Hx]; tauto.
    + apply includes_false in Hin.
      destruct (IH (w ++ [getOrderIdentifier o])%list) as [IH1 IH2].
      destruct (filter_st notYetCollected orders (w ++ [getOrderIdentifier o])%list)
        as [r w']. simpl in *.
      split; intros x.
      * rewrite IH1, elem_of_app, list_elem_of_singleton, elem_of_cons. tauto.
      * rewrite !elem_of_cons, IH2, elem_of_app, list_elem_of_singleton.
        destruct (decide (x = getOrderIdentifier o)) as [->|Hne]; tauto.
Qed.

Lemma filter_st_length orders : forall w,
  (length (filter_st notYetCollected orders w).1 <= length orders)%nat.
Proof.
  induction orders as [|o orders IH]; intros w; [done|].
  cbn [filter_st]. unfold notYetCollected at 1.
  destruct (includes w (getOrderIdentifier o)).
  - specialize (IH w). destruct (filter_st notYetCollected orders w). simpl in *. lia.
  - specialize (IH (w ++ [getOrderIdentifier o])%list).
    destruct (filter_st notYetCollected orders (w ++ [getOrderIdentifier o])%list).
    simpl in *. lia.
Qed.

(** The store after a call: untouched when no candidate is present, and
    else extended by one array at a location that was free. *)
Lemma merge_call_store l cands st :
  if forallb (fun c => negb (isPresent c)) cands
  then addOrderToCollectionIfMissing l cands st = (l, st)
  else exists xs,
         st !! (addOrderToCollectionIfMissing l cands st).1 = None /\
         (addOrderToCollectionIfMissing l cands st).2
         = <[(addOrderToCollectionIfMissing l cands st).1 := xs]> st.
Proof.
  rewrite addOrderToCollectionIfMissing_unfold.
  destruct (forallb (fun c => negb (isPresent c)) cands) eqn:Hnone.
  - apply narrow_nil_iff in Hnone. by rewrite Hnone.
  - destruct (narrow cands) as [|o orders] eqn:Hn.
    { apply narrow_nil_iff in Hn. congruence. }
    eexists. apply alloc_fresh.
Qed.

Lemma merge_call_frame l cands st (k : loc) :
  is_Some (st !! k) ->
  (addOrderToCollectionIfMissing l cands st).2 !! k = st !! k.
Proof.
  intros [xs Hk]. pose proof (merge_call_store l cands st) as H.
  destruct (forallb (fun c => negb (isPresent c)) cands).
  - by rewrite H.
  - destruct H as (ys & Hfree & ->).
    rewrite lookup_insert_ne; [done|]. intros Heq. rewrite Heq in Hfree. congruence.
Qed.

(** One call, on the elements. *)
Lemma merge_call l coll cands st :
  st !! l = Some coll ->
  exists added,
    (addOrderToCollectionIfMissing l cands st).2
      !! (addOrderToCollectionIfMissing l cands st).1 = Some (added ++ coll)%list /\
    (length added <= length (narrow cands))%nat /\
    (forall x, x ∈ map getOrderIdentifier (added ++ coll)%list
               <-> x ∈ map getOrderIdentifier coll \/ x ∈ candidateIdentifiers cands) /\
    (NoDup (map getOrderIdentifier coll) ->
     NoDup (map getOrderIdentifier (added ++ coll)%list)).
Proof.
  intros Hl.
  destruct (addOrderToCollectionIfMissing_elements st l coll cands Hl) as [Hnew _].
  eexists. split; [exact Hnew|]. split; [apply filter_st_length|].
  destruct (filter_st_identifiers (narrow cands) (map getOrderIdentifier coll))
    as [_ Hacc].
  split.
  - intros x. rewrite map_app, elem_of_app, Hacc. unfold candidateIdentifiers.
    destruct (decide (x ∈ map getOrderIdentifier coll)); tauto.
  - intros Hnd. rewrite map_app. apply NoDup_app.
    destruct (filter_st_distinct (narrow cands) (map getOrderIdentifier coll))
      as [Hd Hfresh].
    repeat split; [done| |done]. intros x Hx. by apply Hfresh.
Qed.

Lemma candidateIdentifiers_app cands (more : list (Nullish (Obj string D))) :
  candidateIdentifiers (cands ++ more)%list
  = (candidateIdentifiers cands ++ candidateIdentifiers more)%list.
Proof. unfold candidateIdentifiers. by rewrite narrow_app, map_app. Qed.

(** A sequence of calls, on the elements. *)
Lemma merge_batches (batches : list (list (Nullish (Obj string D)))) :
  forall l coll st,
    st !! l = Some coll ->
    exists added,
      (mergeBatches l batches st).2 !! (mergeBatches l batches st).1
        = Some (added ++ coll)%list /\
      (forall k, is_Some (st !! k) -> (mergeBatches l batches st).2 !! k = st !! k) /\
      (forall x, x ∈ map getOrderIdentifier (added ++ coll)%list
                 <-> x ∈ map getOrderIdentifier coll
                     \/ x ∈ candidateIdentifiers (concat batches)) /\
      (NoDup (map getOrderIdentifier coll) ->
       NoDup (map getOrderIdentifier (added ++ coll)%list)).
Proof.
  induction batches as [|cands batches IH]; intros l coll st Hl.
  - exists []. simpl. repeat split; try done.
    + by left.
    + intros [H|H]; [done|]. by apply elem_of_nil in H.
  - destruct (merge_call l coll cands st Hl) as (added1 & H1 & _ & Hids1 & Hnd1).
    pose proof (merge_call_frame l cands st) as Hframe1.
    cbn [mergeBatches].
    destruct (addOrderToCollectionIfMissing l cands st) as [l1 st1]. simpl in *.
    destruct (IH l1 (added1 ++ coll)%list st1 H1) as (added2 & H2 & Hframe2 & Hids2 & Hnd2).
    exists (added2 ++ added1)%list. rewrite <- app_assoc.
    split; [done|]. split.
    { intros k Hk. rewrite Hframe2; [by apply Hframe1|]. by rewrite Hframe1. }
    split.
    { intros x. rewrite Hids2, Hids1, candidateIdentifiers_app, elem_of_app. tauto. }
    intros Hnd. by apply Hnd2, Hnd1.
Qed.

End MergeCalls.

(** X1. After a call the identifiers of the returned collection are those of
    the collection it was given together with those of the present
    candidates: nothing is lost and nothing else is added; the collection
    grows by at most one element per present candidate. *)
Theorem addOrderToCollectionIfMissing_identifiers :
  forall (D : Type) (st : gmap loc (list (Obj string D))) (l : loc)
         (coll : list (Obj string D)) (cands : list (Nullish (Obj string D))),
    st !! l = Some coll ->
    exists result : list (Obj string D),
      (addOrderToCollectionIfMissing l cands st).2
        !! (addOrderToCollectionIfMissing l cands st).1 = Some result /\
      (forall x : string,
          x ∈ map getOrderIdentifier result
          <-> x ∈ map getOrderIdentifier coll \/ x ∈ candidateIdentifiers cands) /\
      (length coll <= length result <= length coll + length (narrow cands))%nat.
Proof.
  intros D st l coll cands Hl.
  destruct (merge_call l coll cands st Hl) as (added & Hres & Hlen & Hids & _).
  exists (added ++ coll)%list. split; [done|]. split; [done|].
  rewrite length_app. lia.
Qed.

Lemma addOrderToCollectionIfMissing_identifiers_witness :
  let st0 : gmap loc (list (Obj string string)) := {[ 1%positive := [withId "1"] ]} in
  let cands := [Just (withId "2"); JsNull; Just (withId "1"); Just (withId "2")] in
  st0 !! 1%positive = Some [withId "1"] /\
  exists result : list (Obj string string),
    (addOrderToCollectionIfMissing 1%positive cands st0).2
      !! (addOrderToCollectionIfMissing 1%positive cands st0).1 = Some result /\
    (forall x : string,
        x ∈ map getOrderIdentifier result
        <-> x ∈ map getOrderIdentifier [withId "1"] \/ x ∈ candidateIdentifiers cands) /\
    (length [withId "1"] <= length result
     <= length [withId "1"] + length (narrow cands))%nat.
Proof.
  intros st0 cands. split; [reflexivity|].
  exact (addOrderToCollectionIfMissing_identifiers string st0 1%positive
           [withId "1"] cands eq_refl).
Defined.

(** X2. Merging the same candidates a second time, into the collection the
    first call returned, accepts nothing: the second collection has the
    elements of the first, in the same order. *)
Theorem addOrderToCollectionIfMissing_idempotent :
  forall (D : Type) (st : gmap loc (list (Obj string D))) (l : loc)
         (coll : list (Obj string D)) (cands : list (Nullish (Obj string D))),
    st !! l = Some coll ->
    let '(l1, st1) := addOrderToCollectionIfMissing l cands st in
    let '(l2, st2) := addOrderToCollectionIfMissing l1 cands st1 in
    exists result, st1 !! l1 = Some result /\ st2 !! l2 = Some result.
Proof.
  intros D st l coll cands Hl.
  destruct (merge_call l coll cands st Hl) as (added & Hres & _ & Hids & _).
  destruct (addOrderToCollectionIfMissing l cands st) as [l1 st1]. simpl in Hres.
  destruct (addOrderToCollectionIfMissing_elements st1 l1 _ cands Hres) as [Hnew _].
  destruct (addOrderToCollectionIfMissing l1 cands st1) as [l2 st2]. simpl in Hnew.
  exists (added ++ coll)%list. split; [done|].
  rewrite Hnew, filter_st_all_collected; [done|].
  intros o Ho. apply Hids. right. unfold candidateIdentifiers.
  apply list_elem_of_fmap. by exists o.
Qed.

Lemma addOrderToCollectionIfMissing_idempotent_witness :
  let st0 : gmap loc (list (Obj string string)) := {[ 1%positive := [withId "1"] ]} in
  let cands := [Just (withId "2"); JsUndefined; Just (withId "1"); Just (withId "3")] in
  st0 !! 1%positive = Some [withId "1"] /\
  (let '(l1, st1) := addOrderToCollectionIfMissing 1%positive cands st0 in
   let '(l2, st2) := addOrderToCollectionIfMissing l1 cands st1 in
   exists result, st1 !! l1 = Some result /\ st2 !! l2 = Some result).
Proof.
  intros st0 cands. split; [reflexivity|].
  exact (addOrderToCollectionIfMissing_idempotent string st0 1%positive
           [withId "1"] cands eq_refl).
Defined.

(** X3. A call never writes to an array that exists: it returns its argument
    and leaves the store as it is exactly when no candidate is present, and
    otherwise returns a location that was free and adds one array there; every
    array of the store, the argument included, keeps its elements. *)
Theorem addOrderToCollectionIfMissing_frame :
  forall (D : Type) (st : gmap loc (list (Obj string D))) (l : loc)
         (cands : list (Nullish (Obj string D))),
    (if forallb (fun c => negb (isPresent c)) cands
     then addOrderToCollectionIfMissing l cands st = (l, st)
     else exists xs,
            st !! (addOrderToCollectionIfMissing l cands st).1 = None /\
            (addOrderToCollectionIfMissing l cands st).2
            = <[(addOrderToCollectionIfMissing l cands st).1 := xs]> st) /\
    (forall (k : loc) (xs : list (Obj string D)),
        st !! k = Some xs ->
        (addOrderToCollectionIfMissing l cands st).2 !! k = Some xs).
Proof.
  intros D st l cands. split; [apply merge_call_store|].
  intros k xs Hk. rewrite merge_call_frame; [done|by exists xs].
Qed.

Lemma addOrderToCollectionIfMissing_frame_witness :
  let st0 : gmap loc (list (Obj string string)) :=
    {[ 1%positive := [withId "1"]; 2%positive := [withId "9"; withId "8"] ]} in
  st0 !! 2%positive = Some [withId "9"; withId "8"] /\
  (addOrderToCollectionIfMissing 1%positive [Just (withId "9")] st0).2 !! 2%positive
  = Some [withId "9"; withId "8"].
Proof.
  intros st0. split; [reflexivity|].
  exact (proj2 (addOrderToCollectionIfMissing_frame string st0 1%positive
                  [Just (withId "9")]) 2%positive _ eq_refl).
Defined.

(** X4. Through any sequence of calls, each on the collection returned by
    the call before, the first collection is kept as the tail of the last one,
    in its order, and no array that existed is changed. *)
Theorem mergeBatches_keeps_collection :
  forall (D : Type) (batches : list (list (Nullish (Obj string D))))
         (st : gmap loc (list (Obj string D))) (l : loc) (coll : list (Obj string D)),
    st !! l = Some coll ->
    exists added : list (Obj string D),
      (mergeBatches l batches st).2 !! (mergeBatches l batches st).1
        = Some (added ++ coll)%list /\
      (forall (k : loc) (xs : list (Obj string D)),
          st !! k = Some xs -> (mergeBatches l batches st).2 !! k = Some xs).
Proof.
  intros D batches st l coll Hl.
  destruct (merge_batches batches l coll st Hl) as (added & Hres & Hframe & _).
  exists added. split; [done|].
  intros k xs Hk. rewrite Hframe; [done|by exists xs].
Qed.

Lemma mergeBatches_keeps_collection_witness :
  let st0 : gmap loc (list (Obj string string)) :=
    {[ 1%positive := [withId "1"; withId "4"] ]} in
  let batches := [[Just (withId "2"); Just (withId "1")];
                  [JsNull; Just (withId "3"); Just (withId "2")]] in
  st0 !! 1%positive = Some [withId "1"; withId "4"] /\
  exists added : list (Obj string string),
    (mergeBatches 1%positive batches st0).2 !! (mergeBatches 1%positive batches st0).1
      = Some (added ++ [withId "1"; withId "4"])%list /\
    (forall (k : loc) (xs : list (Obj string string)),
        st0 !! k = Some xs -> (mergeBatches 1%positive batches st0).2 !! k = Some xs).
Proof.
  intros st0 batches. split; [reflexivity|].
  exact (mergeBatches_keeps_collection string batches st0 1%positive
           [withId "1"; withId "4"] eq_refl).
Defined.

(** X5. Merging batches of candidates in several calls or all of them in one
    call gives collections with the same identifiers; when the identifiers of
    the first collection are pairwise distinct, the identifiers of the one are
    a permutation of those of the other. *)
Theorem mergeBatches_as_one_call :
  forall (D : Type) (batches : list (list (Nullish (Obj string D))))
         (st : gmap loc (list (Obj string D))) (l : loc) (coll : list (Obj string D)),
    st !! l = Some coll ->
    exists several once : list (Obj string D),
      (mergeBatches l batches st).2 !! (mergeBatches l batches st).1 = Some several /\
      (addOrderToCollectionIfMissing l (concat batches) st).2
        !! (addOrderToCollectionIfMissing l (concat batches) st).1 = Some once /\
      (forall x : string,
          x ∈ map getOrderIdentifier several <-> x ∈ map getOrderIdentifier once) /\
      (NoDup (map getOrderIdentifier coll) ->
       map getOrderIdentifier several ≡ₚ map getOrderIdentifier once).
Proof.
  intros D batches st l coll Hl.
  destruct (merge_batches batches l coll st Hl) as (a1 & H1 & _ & Hids1 & Hnd1).
  destruct (merge_call l coll (concat batches) st Hl) as (a2 & H2 & _ & Hids2 & Hnd2).
  exists (a1 ++ coll)%list, (a2 ++ coll)%list.
  split; [done|]. split; [done|].
  assert (Hsame : forall x, x ∈ map getOrderIdentifier (a1 ++ coll)%list
                            <-> x ∈ map getOrderIdentifier (a2 ++ coll)%list).
  { intros x. by rewrite Hids1, Hids2. }
  split; [done|].
  intros Hnd. apply NoDup_Permutation; [by apply Hnd1|by apply Hnd2|done].
Qed.

Lemma mergeBatches_as_one_call_witness :
  let st0 : gmap loc (list (Obj string string)) :=
    {[ 1%positive := [withId "1"; withId "4"] ]} in
  let batches := [[Just (withId "2"); Just (withId "1")];
                  [JsNull; Just (withId "3"); Just (withId "2")]] in
  st0 !! 1%positive = Some [withId "1"; withId "4"] /\
  exists several once : list (Obj string string),
    (mergeBatches 1%positive batches st0).2 !! (mergeBatches 1%positive batches st0).1
      = Some several /\
    (addOrderToCollectionIfMissing 1%positive (concat batches) st0).2
      !! (addOrderToCollectionIfMissing 1%positive (concat batches) st0).1 = Some once /\
    (forall x : string,
        x ∈ map getOrderIdentifier several <-> x ∈ map getOrderIdentifier once) /\
    (NoDup (map getOrderIdentifier [withId "1"; withId "4"]) ->
     map getOrderIdentifier several ≡ₚ map getOrderIdentifier once).
Proof.
  intros st0 batches. split; [reflexivity|].
  exact (mergeBatches_as_one_call string batches st0 1%positive
           [withId "1"; withId "4"] eq_refl).
Defined.

(** ** Dates and requests *)

(** X6. Whatever the order, the wire form has a date that is [null] or the
    string the date library gives for the date of the order, never a missing
    or undefined one; whatever the payload, the in-memory form has a date that
    is [undefined] or the date read from a non-empty wire string, never
    [null]; both conversions keep the identifier and the other fields. *)
Theorem conversions_date_range :
  forall (L : DateLib) (I : Type),
    (forall order : Obj I Dayjs,
        (date (convertDateFromClient order) = Null \/
         exists (d : Dayjs) (s : string),
           date order = Val d /\ toJSON d = Some s /\
           date (convertDateFromClient order) = Val s) /\
        id (convertDateFromClient order) = id order /\
        others (convertDateFromClient order) = others order) /\
    (forall restOrder : Obj I string,
        (date (convertDateFromServer restOrder) = Undefined \/
         exists s : string,
           date restOrder = Val s /\ s <> "" /\
           date (convertDateFromServer restOrder) = Val (dayjs s)) /\
        id (convertDateFromServer restOrder) = id restOrder /\
        others (convertDateFromServer restOrder) = others restOrder).
Proof.
  intros L I. split.
  - intros [i [| | |d] fields]; simpl; (split; [|done]); try by left.
    destruct (toJSON d) as [s|] eqn:Hd; [|by left].
    right. by exists d, s.
  - intros [i [| | |s] fields]; simpl; (split; [|done]); try by left.
    destruct (String.eqb_spec s "") as [->|Hne]; [by left|].
    right. by exists s.
Qed.

(** X7. A date that the date library cannot print ([toJSON] gives [null], an
    invalid date) is sent as [null], and the order made of that payload has no
    date: the round trip loses it. *)
Theorem invalid_date_is_dropped :
  forall (L : DateLib) (I : Type) (i : I) (fields : gmap string JsVal) (d : Dayjs),
    toJSON d = None ->
    convertDateFromClient (mkObj i (Val d) fields) = mkObj i Null fields /\
    convertDateFromServer (convertDateFromClient (mkObj i (Val d) fields))
      = mkObj i Undefined fields.
Proof.
  intros L I i fields d Hd. unfold convertDateFromClient, convertDateFromServer.
  simpl. rewrite Hd. by split.
Qed.

Lemma invalid_date_is_dropped_witness :
  let order : Obj string IsoDate.t := mkObj "1" (Val IsoDate.Invalid) ∅ in
  @toJSON IsoDate.lib IsoDate.Invalid = None /\
  convertDateFromClient (L := IsoDate.lib) order = mkObj "1" Null ∅ /\
  convertDateFromServer (L := IsoDate.lib) (convertDateFromClient (L := IsoDate.lib) order)
    = mkObj "1" Undefined ∅.
Proof.
  intros order. split; [reflexivity|].
  exact (invalid_date_is_dropped IsoDate.lib string "1" ∅ IsoDate.Invalid eq_refl).
Defined.



(** X9. An order is addressed by the plain concatenation of the endpoint, a
    slash and its identifier: two orders are updated at the same address
    exactly when [compareOrder] holds of them; [partialUpdate] and [delete]
    use the address of [update], and [partialUpdate] sends the payload of
    [update]. *)
Theorem order_address :
  forall (L : DateLib) (Params : Type) (this : OrderService)
         (a b : Obj string Dayjs),
    (target (request (update (Params := Params) this a))
     = target (request (update (Params := Params) this b))
     <-> compareOrder (Some a) (Some b) = true) /\
    target (request (partialUpdate (Params := Params) this a))
      = target (request (update (Params := Params) this a)) /\
    target (delete (Params := Params) this (getOrderIdentifier a))
      = target (request (update (Params := Params) this a)) /\
    payload (request (partialUpdate (Params := Params) this a))
      = payload (request (update (Params := Params) this a)).
Proof.
  intros L Params this a b. repeat split.
  - simpl. intros H. apply String.eqb_eq.
    apply (inj (String.app (resourceUrl this))) in H.
    by apply (inj (String.app "/")) in H.
  - simpl. intros H. apply String.eqb_eq in H. by rewrite H.
Qed.

(** ** Sort parameter *)

Lemma list_ascii_of_string_app (s1 s2 : string) :
  list_ascii_of_string (s1 ++ s2)
  = (list_ascii_of_string s1 ++ list_ascii_of_string s2)%list.
Proof. induction s1 as [|c s1 IH]; simpl; [done|by rewrite IH]. Qed.

Lemma list_ascii_of_string_inj (s1 s2 : string) :
  list_ascii_of_string s1 = list_ascii_of_string s2 -> s1 = s2.
Proof.
  intros H. rewrite <- (string_of_list_ascii_of_string s1), H.
  apply string_of_list_ascii_of_string.
Qed.

(** X10. The sort directive determines what it was made of: two calls with a
    non-empty predicate return the same sequence only for the same predicate
    and the same direction, also when a predicate contains commas. *)
Theorem getSortQueryParam_injective :
  forall (this : OrderService) (p1 p2 : string) (a1 a2 : bool),
    p1 <> "" ->
    getSortQueryParam this (Some p1) (Some a1)
      = getSortQueryParam this (Some p2) (Some a2) ->
    p1 = p2 /\ a1 = a2.
Proof.
  intros this p1 p2 a1 a2 Hne. unfold getSortQueryParam. simpl.
  destruct (String.eqb_spec p1 "") as [|_]; [done|].
  destruct (String.eqb_spec p2 "") as [|_]; [done|].
  intros H. injection H as H.
  apply (f_equal list_ascii_of_string) in H.
  rewrite !list_ascii_of_string_app in H.
  apply (f_equal (@rev ascii)) in H. rewrite !rev_app_distr in H.
  destruct a1, a2; simpl in H; try discriminate.
  - injection H as H. apply (f_equal (@rev ascii)) in H. rewrite !rev_involutive in H.
    by apply list_ascii_of_string_inj in H.
  - injection H as H. apply (f_equal (@rev ascii)) in H. rewrite !rev_involutive in H.
    by apply list_ascii_of_string_inj in H.
Qed.

Lemma getSortQueryParam_injective_witness :
  let this := newOrderService (fun path => path) in
  "date,x" <> "" /\
  getSortQueryParam this (Some "date,x") (Some false)
    = getSortQueryParam this (Some "date,x") (Some false) /\
  "date,x" = "date,x" /\ false = false.
Proof.
  intros this.
  assert (H1 : "date,x" <> "") by discriminate.
  split; [exact H1|]. split; [reflexivity|].
  exact (getSortQueryParam_injective this "date,x" "date,x" false false H1 eq_refl).
Defined.

(** ** The fan-out join at any moment *)

Section JoinTraces.
Context {R E : Type}.
Implicit Types (outs : list (Outcome R E)) (ph : list Phase) (j : Join R).
Implicit Types (sched pre post : list Arrival) (a : Arrival).






End JoinTraces.







(** ** Identity *)

(** X14. [compareOrder] is an equivalence on nullable references: it is
    reflexive and symmetric, and two references that compare equal to a third
    compare equal to each other; [null] is equivalent to nothing but [null]. *)
Theorem compareOrder_equivalence :
  forall (D : Type) (a b c : option (Obj string D)),
    compareOrder a a = true /\
    compareOrder a b = compareOrder b a /\
    (compareOrder a b = true -> compareOrder b c = true -> compareOrder a c = true) /\
    (compareOrder a None = true -> a = None).
Proof.
  intros D [a|] [b|] [c|]; simpl; repeat split; try done;
    try apply String.eqb_refl; try apply String.eqb_sym.
  all: intros H1 H2; apply String.eqb_eq in H1, H2; apply String.eqb_eq; congruence.
Qed.

Lemma compareOrder_equivalence_witness :
  let a : option (Obj string string) := Some (mkObj "7" (Val "2023-05-01T00:00:00Z") ∅) in
  let b : option (Obj string string) := Some (withId "7") in
  let c : option (Obj string string) := Some (mkObj "7" Null {[ "comment" := JStr "x" ]}) in
  compareOrder a b = true /\ compareOrder b c = true /\ compareOrder a c = true.
Proof.
  intros a b c.
  assert (H1 : compareOrder a b = true) by reflexivity.
  assert (H2 : compareOrder b c = true) by reflexivity.
  split; [exact H1|]. split; [exact H2|].
  exact (proj1 (proj2 (proj2 (compareOrder_equivalence string a b c))) H1 H2).
Defined.
